(** * Azure activity-log pipeline: ingestion, enrichment and summaries

    A shallow embedding of [azure_log_analytics.py]: the event callback
    [on_event], the collector [ingest_subscription_logs], the analysis
    [process_log_data] (left merge with the resource table, category
    column, three [groupby(...).size()] summaries), the driver [main],
    and the cell values [generate_excel_report] writes to the summary
    sheet and to a subscription's analysis sheet.

    Tables are lists of rows in index order.  The pandas operations the
    script calls are embedded with the semantics pandas documents for
    them: [merge(how='left')] is a left outer join that keeps the order
    of the left keys, [groupby(key).size()] sorts the group keys
    ascending, [str.split(sep)] cuts at every separator.  Worksheets
    follow openpyxl: [cell] writes at a coordinate, [append] writes the
    row after the last one used. *)

From stdpp Require Import base list strings gmap sorting.
From Stdlib Require Import Ascii String OrdersEx.

Local Open Scope string_scope.
Local Open Scope list_scope.

(** ** Exceptions and outcomes of a call *)

Inductive Exception : Type :=
  | KeyError (key : string)        (* dict lookup of an absent key *)
  | UnicodeDecodeError             (* body_as_str could not decode *)
  | IndexError                     (* list index out of range *)
  | ServiceError (reason : string) (* raised by an Azure client *).

(** A call returns, raises, or is still running when the observation ends. *)
Inductive outcome (A : Type) : Type :=
  | Returned (a : A)
  | Raised (e : Exception)
  | Blocked.
Arguments Returned {A} a.
Arguments Raised {A} e.
Arguments Blocked {A}.

(** Sequencing: an exception or a blocked call ends the sequence. *)
Global Instance outcome_bind : MBind outcome := λ A B k m,
  match m with
  | Returned a => k a
  | Raised e => Raised e
  | Blocked => Blocked
  end.

Global Instance outcome_ret : MRet outcome := λ A a, Returned a.

(** ** Rows *)

(** A row of the collected table, columns as created on line 57. *)
Record LogRow : Type := mkLogRow {
  TimeGenerated : string;
  ResourceId : string;
  OperationName : string;
  Level : string;
  Message : string
}.

Abbreviation DataFrame := (list LogRow).

(** An Event Hub event: the annotation dict of the AMQP message and the
    result of [body_as_str(encoding='UTF-8')]. *)
Record EventData : Type := mkEventData {
  annotations : gmap string string;
  body_as_str : Exception + string
}.

(** ** Collector *)
Module Collector.

Definition key_time : string := "microsoft.azure.monitor.metricValueTimeUTC".
Definition key_resource : string := "resourceId".
Definition key_operation : string := "operationName".
Definition key_level : string := "level".

(** [d[k]] on a Python dict. *)
Definition getitem (d : gmap string string) (k : string) : outcome string :=
  match d !! k with
  | Some v => Returned v
  | None => Raised (KeyError k)
  end.

Definition decode (b : Exception + string) : outcome string :=
  match b with
  | inl e => Raised e
  | inr s => Returned s
  end.

(** The dict display of lines 60-66, evaluated top to bottom. *)
Definition event_dict (event : EventData) : outcome LogRow :=
  t ← getitem (annotations event) key_time;
  r ← getitem (annotations event) key_resource;
  o ← getitem (annotations event) key_operation;
  l ← getitem (annotations event) key_level;
  m ← decode (body_as_str event);
  Returned (mkLogRow t r o l m).

(** [on_event]: build the row, then [df.loc[len(df)] = event_dict].
    The table is the closure variable [df]; it is passed in and the
    table after the call is passed out next to the call's outcome. *)
Definition on_event (df : DataFrame) (event : EventData)
  : outcome unit * DataFrame :=
  match event_dict event with
  | Returned row => (Returned tt, df ++ [row])
  | Raised e => (Raised e, df)
  | Blocked => (Blocked, df)
  end.

(** What the consumer client does at one step of [receive]: it hands
    an event to the callback, waits, or fails on its own. *)
Inductive tick : Type :=
  | Deliver (event : EventData)
  | Idle
  | Fault (e : Exception).

(** [consumer_client.receive(on_event=on_event, starting_position="-1")].
    The call has no stop condition: it keeps running until the client
    raises.  An exception of the callback is handed to the client's
    error handler (none is registered here) and reception goes on.
    [fuel] bounds how long the call is observed. *)
Fixpoint receive (fuel : nat) (stream : nat → tick) (pos : nat)
    (df : DataFrame) : outcome unit * DataFrame :=
  match fuel with
  | O => (Blocked, df)
  | S fuel' =>
      match stream pos with
      | Deliver event => receive fuel' stream (S pos) (on_event df event).2
      | Idle => receive fuel' stream (S pos) df
      | Fault e => (Raised e, df)
      end
  end.

(** [ingest_subscription_logs]: fresh table, [receive], [return df].
    The subscription id is only printed. *)
Definition ingest_subscription_logs (fuel : nat) (stream : nat → tick)
    (subscription_id : string) : outcome DataFrame :=
  let df := [] in
  let '(r, df') := receive fuel stream 0 df in
  _ ← r; Returned df'.

(** The table after the client has called [on_event] on each of
    [events] in turn. *)
Definition deliveries (df : DataFrame) (events : list EventData) : DataFrame :=
  foldl (fun d ev => (on_event d ev).2) df events.

(** The events handed to the callback during the first [fuel] steps
    from [pos], up to a failure of the client. *)
Fixpoint delivered (fuel : nat) (stream : nat → tick) (pos : nat)
  : list EventData :=
  match fuel with
  | O => []
  | S fuel' =>
      match stream pos with
      | Deliver event => event :: delivered fuel' stream (S pos)
      | Idle => delivered fuel' stream (S pos)
      | Fault _ => []
      end
  end.

(** The records [on_event] raises on. *)
Definition rejected (event : EventData) : bool :=
  match event_dict event with
  | Returned _ => false
  | _ => true
  end.

End Collector.

(** ** Python dicts in insertion order *)
Module Dict.

Definition dict (V : Type) := list (string * V).

(** [d[k] = v]: an existing key keeps its place, a new key goes last. *)
Fixpoint setitem {V} (k : string) (v : V) (d : dict V) : dict V :=
  match d with
  | [] => [(k, v)]
  | (k', v') :: d' =>
      if decide (k' = k) then (k, v) :: d' else (k', v') :: setitem k v d'
  end.

Definition keys {V} (d : dict V) : list string := d.*1.

End Dict.

(** ** Analysis: [process_log_data] *)
Module Analysis.

(** What [resources.list(sub_id, expand="tags")] yields. *)
Record Resource : Type := mkResource {
  id : string;
  resource_group : string;
  location : string;
  tags : gmap string string
}.

(** A row of the merged table: the five log columns and the three
    columns of [resource_df], null where no resource matched. *)
Record MergedRow : Type := mkMergedRow {
  log : LogRow;
  ResourceGroup : option string;
  Location : option string;
  Tags : option (gmap string string)
}.

(** The merged table with the [Category] column of line 89. *)
Record EnrichedRow : Type := mkEnrichedRow {
  merged : MergedRow;
  Category : string
}.

Definition matched (l : LogRow) (r : Resource) : MergedRow :=
  mkMergedRow l (Some (resource_group r)) (Some (location r)) (Some (tags r)).

Definition unmatched (l : LogRow) : MergedRow :=
  mkMergedRow l None None None.

(** The rows of [resource_df] whose key equals that of [l], in the
    order of [resource_df]. *)
Definition matches (l : LogRow) (resource_df : list Resource) : list Resource :=
  filter (λ r, id r = ResourceId l) resource_df.

(** The rows one event contributes to the merged table. *)
Definition rows_for (l : LogRow) (resource_df : list Resource) : list MergedRow :=
  match matches l resource_df with
  | [] => [unmatched l]
  | ms => matched l <$> ms
  end.

(** [sub_df.merge(resource_df, on='ResourceId', how='left')]: every
    left row, in left order, once per matching right row, and once
    with nulls when there is none. *)
Definition merge_left (sub_df : DataFrame) (resource_df : list Resource)
  : list MergedRow :=
  l ← sub_df; rows_for l resource_df.

(** [s.split(sep)] for a one-character separator. *)
Fixpoint split (sep : ascii) (s : string) : list string :=
  match s with
  | EmptyString => [EmptyString]
  | String c s' =>
      if decide (c = sep) then EmptyString :: split sep s'
      else match split sep s' with
           | piece :: pieces => String c piece :: pieces
           | [] => [String c EmptyString]
           end
  end.

(** [x.split('/')[0]] *)
Definition category (x : string) : outcome string :=
  match split "/"%char x with
  | piece :: _ => Returned piece
  | [] => Raised IndexError
  end.

(** [sub_df['Category'] = sub_df['OperationName'].apply(...)] *)
Fixpoint add_category (rows : list MergedRow) : outcome (list EnrichedRow) :=
  match rows with
  | [] => Returned []
  | row :: rows' =>
      c ← category (OperationName (log row));
      rest ← add_category rows';
      Returned (mkEnrichedRow row c :: rest)
  end.

(** Lines 84-89 for one subscription. *)
Definition enrich (sub_df : DataFrame) (resource_df : list Resource)
  : outcome (list EnrichedRow) :=
  add_category (merge_left sub_df resource_df).

(** Order of Python strings: lexicographic on the characters. *)
Definition str_le (a b : string) : Prop := String_as_OT.compare a b ≠ Gt.

Global Instance str_le_dec a b : Decision (str_le a b).
Proof. unfold str_le. apply _. Defined.

Definition str_lt (a b : string) : Prop := String_as_OT.compare a b = Lt.

Global Instance str_lt_dec a b : Decision (str_lt a b).
Proof. unfold str_lt. apply _. Defined.

(** The distinct values of a column in order of first appearance. *)
Fixpoint unique_from (seen : gset string) (col : list string) : list string :=
  match col with
  | [] => []
  | x :: col' =>
      if decide (x ∈ seen) then unique_from seen col'
      else x :: unique_from ({[x]} ∪ seen) col'
  end.

Definition unique (col : list string) : list string := unique_from ∅ col.

Definition group_size (key : string) (col : list string) : nat :=
  List.length (filter (λ x, x = key) col).

(** The group keys: each distinct value once, ascending. *)
Definition group_keys (col : list string) : list string :=
  merge_sort str_le (unique col).

(** [df.groupby(col).size().reset_index(name='Count')]: one row per
    distinct key, keys sorted ascending, with the size of the group. *)
Definition groupby_size (col : list string) : list (string * nat) :=
  (λ key, (key, group_size key col)) <$> group_keys col.

Record Summary : Type := mkSummary {
  operation_summary : list (string * nat);
  severity_summary : list (string * nat);
  resource_summary : list (string * nat)
}.

Definition column (f : LogRow → string) (rows : list EnrichedRow) : list string :=
  (λ row, f (log (merged row))) <$> rows.

(** Lines 92-94. *)
Definition summarize (rows : list EnrichedRow) : Summary :=
  mkSummary (groupby_size (column OperationName rows))
            (groupby_size (column Level rows))
            (groupby_size (column ResourceId rows)).

Record Result : Type := mkResult {
  subscription_logs : list EnrichedRow;
  summaries : Summary
}.

Section process.
(** [monitor_client.resources.list], consumed by the comprehension
    of line 84. *)
Variable resources_list : string → outcome (list Resource).

(** The loop body, lines 79-101.  Line 82 computes the distinct
    resource ids of [sub_df] and does not use them. *)
Definition analyse (sub_id : string) (sub_df : DataFrame) : outcome Result :=
  resource_df ← resources_list sub_id;
  rows ← enrich sub_df resource_df;
  Returned (mkResult rows (summarize rows)).

Fixpoint process_items (items : Dict.dict DataFrame)
    (analysis_results : Dict.dict Result) : outcome (Dict.dict Result) :=
  match items with
  | [] => Returned analysis_results
  | (sub_id, sub_df) :: items' =>
      r ← analyse sub_id sub_df;
      process_items items' (Dict.setitem sub_id r analysis_results)
  end.

Definition process_log_data (log_data : Dict.dict DataFrame)
  : outcome (Dict.dict Result) :=
  process_items log_data [].
End process.

End Analysis.

(** ** Driver: [main] *)
Module Main.
Import Analysis.

(** What [main] did: it reached [generate_excel_report] with these
    arguments, or its handler printed "Log analysis failed", or it is
    still running. *)
Inductive main_result : Type :=
  | ReportRequested (log_data : Dict.dict DataFrame)
                    (analysis_results : Dict.dict Result)
  | LogAnalysisFailed (e : Exception)
  | StillRunning.

Section main.
Variable subscriptions_list : outcome (list string).
Variable ingest : string → outcome DataFrame.
Variable resources_list : string → outcome (list Resource).

(** The loop of lines 41-43. *)
Fixpoint ingest_all (subscriptions : list string)
    (log_data : Dict.dict DataFrame) : outcome (Dict.dict DataFrame) :=
  match subscriptions with
  | [] => Returned log_data
  | sub :: subscriptions' =>
      df ← ingest sub;
      ingest_all subscriptions' (Dict.setitem sub df log_data)
  end.

(** The body of the [try] up to the call of the report generator. *)
Definition main_body
  : outcome (Dict.dict DataFrame * Dict.dict Result) :=
  subscriptions ← subscriptions_list;
  log_data ← ingest_all subscriptions [];
  analysis_results ← process_log_data resources_list log_data;
  Returned (log_data, analysis_results).

(** [main]: the single [try]/[except Exception] around the body. *)
Definition main_with : main_result :=
  match main_body with
  | Returned (log_data, analysis_results) =>
      ReportRequested log_data analysis_results
  | Raised e => LogAnalysisFailed e
  | Blocked => StillRunning
  end.
End main.

(** [main] with the collector of this script: every subscription is
    read from the one module-level consumer client. *)
Definition main (fuel : nat) (subscriptions_list : outcome (list string))
    (stream : nat → Collector.tick)
    (resources_list : string → outcome (list Resource)) : main_result :=
  main_with subscriptions_list
            (Collector.ingest_subscription_logs fuel stream)
            resources_list.

End Main.

(** ** Claimed order of a summary table *)
Module Spec.
Import Analysis.

(** The order the specification asks of a summary table: larger
    counts first, equal counts by ascending key. *)
Definition count_desc_key_asc (p q : string * nat) : Prop :=
  (q.2 < p.2)%nat ∨ (p.2 = q.2 ∧ str_le p.1 q.1).

End Spec.

(** ** Sample inputs *)
Module Samples.
Import Collector Analysis.

(** A stream on which nothing ever arrives. *)
Definition silent : nat → tick := λ _, Idle.

(** A consumer client that fails at once. *)
Definition unavailable : nat → Collector.tick :=
  λ _, Fault (ServiceError "stream unavailable").

Definition good_event : EventData :=
  mkEventData
    (<[key_time := "2024-01-01T00:00:00Z"]>
     (<[key_resource := "/subscriptions/s/vm1"]>
      (<[key_operation := "Microsoft.Compute/virtualMachines/write"]>
       (<[key_level := "Error"]> ∅))))
    (inr "started").

(** The same record without its resourceId annotation. *)
Definition bad_event : EventData :=
  mkEventData (delete key_resource (annotations good_event))
              (body_as_str good_event).

Definition ev_vm1 : LogRow :=
  mkLogRow "2024-01-01T00:00:00Z" "/subscriptions/s/vm1"
           "Microsoft.Compute/virtualMachines/write" "Error" "started".

Definition ev_unknown : LogRow :=
  mkLogRow "2024-01-01T00:00:05Z" "/subscriptions/s/gone"
           "Microsoft.Storage/storageAccounts/delete" "Info" "removed".

Definition res_vm1 : Resource :=
  mkResource "/subscriptions/s/vm1" "rg-old" "westeurope" ∅.

(** A second entry registered later under the same id. *)
Definition res_vm1_again : Resource :=
  mkResource "/subscriptions/s/vm1" "rg-new" "northeurope" {["env" := "prod"]}.

Definition res_vm2 : Resource :=
  mkResource "/subscriptions/s/vm2" "rg-old" "westeurope" ∅.

(** An enriched row with the given operation, level and resource. *)
Definition row_of (op level rid : string) : EnrichedRow :=
  mkEnrichedRow
    (unmatched (mkLogRow "2024-01-01T00:00:00Z" rid op level ""))
    match category op with Returned c => c | _ => "" end.

Definition scenario : list EnrichedRow :=
  [ row_of "Microsoft.Compute/vm1" "Error" "/r/1";
    row_of "Microsoft.Compute/vm2" "Info" "/r/2";
    row_of "Microsoft.Storage/acct1" "Error" "/r/3" ].

Definition skewed : list EnrichedRow :=
  [ row_of "Write" "Info" "/r/2"; row_of "Delete" "Error" "/r/1";
    row_of "Write" "Error" "/r/2" ].

(** A collector that returns one event for every subscription. *)
Definition ingest_one : string → outcome DataFrame :=
  λ _, Returned [ev_vm1].

(** The directory of subscription "sub-A" cannot be fetched. *)
Definition directory_A_down : string → outcome (list Resource) :=
  λ s, if decide (s = "sub-A")
       then Raised (ServiceError "directory fetch failed")
       else Returned [res_vm1].

End Samples.

(** ** Report: the values [generate_excel_report] writes

    The cell values of the summary sheet (lines 119-140) and of a
    subscription's analysis sheet (lines 155-178, 184-198).  Fonts,
    fills, alignments, the chart objects and the upload carry no cell
    value and are left out; so is the raw-data sheet. *)
Module Report.
Import Analysis.

Inductive value : Type :=
  | Str (s : string)
  | Int (n : nat).

(** An openpyxl worksheet: the valued cells by (row, column), and the
    row counter [_current_row] that [append] continues from. *)
Record Worksheet : Type := mkWorksheet {
  cells : gmap (nat * nat) value;
  current_row : nat
}.

(** A sheet as [create_sheet] makes it. *)
Definition new_sheet : Worksheet := mkWorksheet ∅ 0.

(** [ws.cell(row=row, column=column, value=v)]; also [ws['A1'] = v]. *)
Definition cell (row column : nat) (v : value) (ws : Worksheet) : Worksheet :=
  mkWorksheet (<[(row, column) := v]> (cells ws))
              (Nat.max row (current_row ws)).

(** The cells of one appended row, from [column] on. *)
Fixpoint write_row (row column : nat) (values : list value)
    (cs : gmap (nat * nat) value) : gmap (nat * nat) value :=
  match values with
  | [] => cs
  | v :: values' => write_row row (S column) values' (<[(row, column) := v]> cs)
  end.

(** [ws.append(values)]: the row after [_current_row], columns 1, 2, ... *)
Definition append (values : list value) (ws : Worksheet) : Worksheet :=
  let row_idx := current_row ws + 1 in
  mkWorksheet (write_row row_idx 1 values (cells ws)) row_idx.

(** [for r in rows: ws.append(r)] *)
Definition append_all (rows : list (list value)) (ws : Worksheet) : Worksheet :=
  foldl (λ w r, append r w) ws rows.

(** [ws.max_row]: the largest row that has a cell, 1 on an empty sheet. *)
Definition max_row (ws : Worksheet) : nat :=
  match (map_to_list (cells ws)).*1.*1 with
  | [] => 1
  | rows => max_list rows
  end.

(** [dataframe_to_rows(df, index=False, header=True)] for a summary
    table: the column names, then one list per row. *)
Definition dataframe_to_rows (columns : list string)
    (table : list (string * nat)) : list (list value) :=
  (Str <$> columns) :: ((λ p, [Str p.1; Int p.2]) <$> table).

(** Line 138: [len(sub_data['subscription_logs'])]. *)
Definition total_logs (logs : list EnrichedRow) : nat := List.length logs.

(** Line 139: the rows selected by the mask [Level == 'Error']. *)
Definition error_logs (logs : list EnrichedRow) : nat :=
  List.length (filter (λ row, Level (log (merged row)) = "Error") logs).

(** Line 140: [logs['ResourceId'].nunique()]. *)
Definition resource_types (logs : list EnrichedRow) : nat :=
  List.length (unique (column ResourceId logs)).




(** [Reference(ws, min_col=.., min_row=.., max_row=..)]: one column. *)
Record Reference : Type := mkReference {
  min_col : nat;
  min_row : nat;
  ref_max_row : nat
}.

Definition covers (ref : Reference) (row column : nat) : Prop :=
  column = min_col ref ∧ (min_row ref ≤ row ≤ ref_max_row ref)%nat.

Record AnalysisSheet : Type := mkAnalysisSheet {
  sheet : Worksheet;
  op_start_row : nat;
  sev_start_row : nat;
  labels : Reference;
  data : Reference;
  op_data : Reference;
  op_cats : Reference
}.

(** Lines 155-198 for one subscription. *)
Definition analysis_sheet (s : Summary) : AnalysisSheet :=
  let ws := new_sheet in
  let op_start_row := 1 in
  let ws := cell op_start_row 1 (Str "Top Operations") ws in
  let op_start_row := op_start_row + 1 in
  let top := take 5 (operation_summary s) in
  let ws := append_all (dataframe_to_rows ["OperationName"; "Count"] top) ws in
  let sev_start_row := op_start_row + List.length top + 2 in
  let ws := cell sev_start_row 1 (Str "Log Severity") ws in
  let sev_start_row := sev_start_row + 1 in
  let ws := append_all
              (dataframe_to_rows ["Level"; "Count"] (severity_summary s)) ws in
  mkAnalysisSheet ws op_start_row sev_start_row
    (mkReference 1 (sev_start_row + 1) (max_row ws))
    (mkReference 2 sev_start_row (max_row ws))
    (mkReference 2 op_start_row (op_start_row + 4))
    (mkReference 1 (op_start_row + 1) (op_start_row + 5)).

End Report.

(** ** Views of the collector *)
Module Arrival.
Import Collector.

(** The row [on_event] appends for an event, if it appends one. *)
Definition accepted_row (event : EventData) : option LogRow :=
  match event_dict event with
  | Returned row => Some row
  | _ => None
  end.

(** The annotation keys in the order the dict display reads them. *)
Definition annotation_keys : list string :=
  [key_time; key_resource; key_operation; key_level].

End Arrival.

(** ** Further sample inputs *)
Module MoreSamples.
Import Collector Analysis Samples.

(** The same record as [good_event] without its level annotation. *)
Definition no_level_event : EventData :=
  mkEventData (delete key_level (annotations good_event))
              (body_as_str good_event).

(** A client that is idle for two steps and then fails. *)
Definition late_fault : nat → tick :=
  λ n, if decide (n < 2) then Idle
       else Fault (ServiceError "connection lost").

(** Every directory can be fetched and lists one resource. *)
Definition directory_up : string → outcome (list Resource) :=
  λ _, Returned [res_vm1].


(** Seven events with seven different operations. *)
Definition seven_operations : list EnrichedRow :=
  [ row_of "Op1" "Info" "/r/1"; row_of "Op2" "Info" "/r/1";
    row_of "Op3" "Error" "/r/1"; row_of "Op4" "Info" "/r/2";
    row_of "Op5" "Error" "/r/2"; row_of "Op6" "Info" "/r/2";
    row_of "Op7" "Warning" "/r/3" ].

End MoreSamples.

(** * Properties *)

(** ** Collector *)
Module CollectorFacts.
Import Collector Samples.

Lemma on_event_rejected df event :
  rejected event = true → (on_event df event).2 = df.
Proof.
  unfold rejected, on_event.
  destruct (event_dict event); simpl; congruence.
Qed.

Lemma on_event_accepted df event :
  rejected event = false →
  ∃ row, event_dict event = Returned row ∧ (on_event df event).2 = df ++ [row].
Proof.
  unfold rejected, on_event.
  destruct (event_dict event) as [row| |]; simpl; try discriminate.
  intros _. by exists row.
Qed.

Lemma deliveries_app df events1 events2 :
  deliveries df (events1 ++ events2) = deliveries (deliveries df events1) events2.
Proof. unfold deliveries. apply foldl_app. Qed.

Lemma deliveries_cons df event events :
  deliveries df (event :: events) = deliveries (on_event df event).2 events.
Proof. reflexivity. Qed.

(** A record lacking one of the three annotations makes the dict
    display raise [KeyError] on the first absent key. *)
Lemma event_dict_missing event :
  annotations event !! key_time = None ∨
  annotations event !! key_resource = None ∨
  annotations event !! key_operation = None →
  ∃ k, k ∈ [key_time; key_resource; key_operation] ∧
       annotations event !! k = None ∧
       event_dict event = Raised (KeyError k).
Proof.
  intros Hmiss. unfold event_dict, getitem.
  destruct (annotations event !! key_time) as [t|] eqn:Ht.
  2:{ exists key_time. repeat split; [by repeat constructor | done]. }
  destruct (annotations event !! key_resource) as [r|] eqn:Hr.
  2:{ exists key_resource. repeat split; [by repeat constructor | done]. }
  destruct (annotations event !! key_operation) as [o|] eqn:Ho.
  2:{ exists key_operation. repeat split; [by repeat constructor | done]. }
  destruct Hmiss as [H|[H|H]]; congruence.
Qed.

(** [receive] has no return path. *)
Lemma receive_never_returns fuel stream pos df u :
  (receive fuel stream pos df).1 ≠ Returned u.
Proof.
  revert pos df. induction fuel as [|fuel IH]; intros pos df; simpl.
  - discriminate.
  - destruct (stream pos); simpl; auto; discriminate.
Qed.

(** On a client that never fails, [receive] is still running after
    any number of steps. *)
Lemma receive_blocks fuel stream pos df :
  (∀ n e, stream n ≠ Fault e) →
  (receive fuel stream pos df).1 = Blocked.
Proof.
  intros Hlive. revert pos df.
  induction fuel as [|fuel IH]; intros pos df; simpl; [done|].
  destruct (stream pos) eqn:Hs; auto. by destruct (Hlive pos e).
Qed.

(** Once the client fails, [receive] raises what the client raised. *)
Lemma receive_fault k fuel stream pos df e :
  (∀ j e', j < k → stream (pos + j) ≠ Fault e') →
  stream (pos + k) = Fault e →
  k < fuel →
  (receive fuel stream pos df).1 = Raised e.
Proof.
  revert fuel pos df. induction k as [|k IH]; intros fuel pos df Hlive Hfault Hk.
  - destruct fuel as [|fuel]; [lia|]. simpl.
    rewrite Nat.add_0_r in Hfault. by rewrite Hfault.
  - destruct fuel as [|fuel]; [lia|]. simpl.
    assert (∀ df', (receive fuel stream (S pos) df').1 = Raised e) as Hnext.
    { intros df'. apply IH; [| |lia].
      - intros j e' Hj. replace (S pos + j) with (pos + S j) by lia.
        apply Hlive. lia.
      - by replace (S pos + k) with (pos + S k) by lia. }
    pose proof (Hlive 0 e) as H0. rewrite Nat.add_0_r in H0.
    destruct (stream pos) as [event| |e0] eqn:Hs; auto.
    destruct (Hlive 0 e0); [lia|]. by rewrite Nat.add_0_r.
Qed.

Lemma receive_table fuel stream pos df :
  (receive fuel stream pos df).2 = deliveries df (delivered fuel stream pos).
Proof.
  revert pos df. induction fuel as [|fuel IH]; intros pos df; simpl; [done|].
  destruct (stream pos); simpl; auto.
Qed.

(** The collector is still receiving, or the client has raised. *)
Lemma ingest_cases fuel stream subscription_id :
  ingest_subscription_logs fuel stream subscription_id = Blocked ∨
  ∃ e, ingest_subscription_logs fuel stream subscription_id = Raised e.
Proof.
  unfold ingest_subscription_logs.
  pose proof (receive_never_returns fuel stream 0 []) as Hnever.
  destruct (receive fuel stream 0 []) as [[u| |] df']; simpl in *; eauto.
  by destruct (Hnever u).
Qed.

(** C3 (the code falls short of it): whatever the stream and however
    long the call is observed, [ingest_subscription_logs] has not
    returned a table; the script passes no time or item budget to
    [receive] and [return df] is never reached. *)
Theorem ingest_subscription_logs_never_returns fuel stream subscription_id df :
  ingest_subscription_logs fuel stream subscription_id ≠ Returned df.
Proof.
  destruct (ingest_cases fuel stream subscription_id) as [->|[e ->]];
    discriminate.
Qed.

Example ingest_silent_stream_blocks :
  ingest_subscription_logs 1000 silent "sub-A" = Blocked.
Proof. reflexivity. Qed.

(** C4, as amended: a record without the timestamp, resourceId or
    operationName annotation makes [on_event] raise [KeyError] on an
    absent key, leaves the table as it was, and later deliveries are
    appended as if the record had not been delivered.  No count of
    such records is kept. *)
Theorem on_event_missing_field df event :
  annotations event !! key_time = None ∨
  annotations event !! key_resource = None ∨
  annotations event !! key_operation = None →
  ∃ k, k ∈ [key_time; key_resource; key_operation] ∧
       annotations event !! k = None ∧
       on_event df event = (Raised (KeyError k), df) ∧
       ∀ before after,
         deliveries df (before ++ event :: after)
         = deliveries df (before ++ after).
Proof.
  intros Hmiss.
  destruct (event_dict_missing event Hmiss) as (k & Hk & Hnone & Hraise).
  exists k. repeat split; try done.
  - unfold on_event. by rewrite Hraise.
  - intros before after.
    rewrite !deliveries_app, deliveries_cons.
    f_equal. unfold on_event. by rewrite Hraise.
Qed.

Lemma on_event_missing_field_witness :
  ∃ k, k ∈ [key_time; key_resource; key_operation] ∧
       annotations bad_event !! k = None ∧
       on_event [] bad_event = (Raised (KeyError k), []) ∧
       ∀ before after,
         deliveries [] (before ++ bad_event :: after)
         = deliveries [] (before ++ after).
Proof.
  apply (on_event_missing_field [] bad_event).
  right; left. vm_compute. reflexivity.
Defined.

(** C4 as stated fails on "counted": the only state of the collector
    is the table, and it is the same after one skipped record as after
    none, so no skip count can be read from it. *)
Lemma skip_not_counted :
  rejected bad_event = true ∧
  deliveries [] [bad_event] = deliveries [] [] ∧
  ¬ ∃ skipped : DataFrame → nat,
      ∀ events, skipped (deliveries [] events)
                = List.length (filter (λ ev, rejected ev = true) events).
Proof.
  assert (Hrej : rejected bad_event = true) by (vm_compute; reflexivity).
  assert (Hsame : deliveries [] [bad_event] = deliveries [] []).
  { unfold deliveries; simpl. by apply on_event_rejected. }
  repeat split; try done.
  intros [skipped Hcount].
  pose proof (Hcount [bad_event]) as H1.
  pose proof (Hcount []) as H0.
  rewrite Hsame in H1. rewrite H1 in H0.
  rewrite filter_cons_True in H0 by done. discriminate.
Qed.

End CollectorFacts.

(** ** Category column *)
Module CategoryFacts.
Import Analysis.

Lemma split_nonempty sep s : split sep s ≠ [].
Proof.
  destruct s as [|c s]; simpl; [done|].
  destruct (decide (c = sep)); [done|].
  by destruct (split sep s).
Qed.

Lemma index_slash_cons c s :
  index 0 "/" (String c s)
  = if decide (c = "/"%char) then Some 0
    else S <$> index 0 "/" s.
Proof.
  cbn [index prefix]. destruct (ascii_dec "/" c) as [<-|Hne].
  - rewrite decide_True by done. by destruct s.
  - rewrite decide_False by congruence.
    by destruct (index 0 "/" s).
Qed.

(** The first piece of [split] is the text before the first separator. *)
Lemma split_head op :
  head (split "/"%char op)
  = Some (match index 0 "/" op with
          | Some i => substring 0 i op
          | None => op
          end).
Proof.
  induction op as [|c op IH].
  - reflexivity.
  - rewrite index_slash_cons. cbn [split].
    destruct (decide (c = "/"%char)) as [->|Hne]; [done|].
    destruct (split "/"%char op) as [|piece pieces] eqn:Hsplit;
      [by destruct (split_nonempty "/"%char op)|].
    simpl in IH. injection IH as ->.
    by destruct (index 0 "/" op).
Qed.

(** C9: the category of an operation name is the substring before its
    first '/', and the whole name when it has no '/'. *)
Theorem category_first_segment op :
  category op
  = Returned (match index 0 "/" op with
              | Some i => substring 0 i op
              | None => op
              end).
Proof.
  pose proof (split_head op) as Hhead. unfold category.
  destruct (split "/"%char op) as [|piece pieces];
    simpl in Hhead; congruence.
Qed.

Example category_compute :
  category "Microsoft.Compute/virtualMachines/write" = Returned "Microsoft.Compute".
Proof. reflexivity. Qed.

Example category_no_slash : category "Restart" = Returned "Restart".
Proof. reflexivity. Qed.

Example category_leading_slash : category "/a/b" = Returned "".
Proof. reflexivity. Qed.

Lemma category_total x : ∃ c, category x = Returned c.
Proof.
  unfold category. destruct (split "/"%char x) as [|piece pieces] eqn:Hsplit.
  - by destruct (split_nonempty "/"%char x).
  - by exists piece.
Qed.

(** The [apply] of line 89 never raises and keeps rows and order. *)
Lemma add_category_total rows :
  ∃ out, add_category rows = Returned out ∧ merged <$> out = rows.
Proof.
  induction rows as [|row rows (out & Hout & Hrows)]; simpl.
  - by exists [].
  - destruct (category_total (OperationName (log row))) as [c ->]. simpl.
    rewrite Hout. simpl.
    exists (mkEnrichedRow row c :: out). by rewrite fmap_cons, Hrows.
Qed.

End CategoryFacts.

(** ** Enrichment: the left merge *)
Module EnrichFacts.
Import Analysis CategoryFacts.

Lemma merge_left_cons l sub_df resource_df :
  merge_left (l :: sub_df) resource_df
  = rows_for l resource_df ++ merge_left sub_df resource_df.
Proof. reflexivity. Qed.

Lemma rows_for_log l resource_df :
  Forall (λ row, log row = l) (rows_for l resource_df).
Proof.
  unfold rows_for. destruct (matches l resource_df) as [|r ms].
  - by repeat constructor.
  - apply Forall_fmap, Forall_true. done.
Qed.

Lemma rows_for_length l resource_df :
  List.length (rows_for l resource_df)
  = Nat.max 1 (List.length (matches l resource_df)).
Proof.
  unfold rows_for. destruct (matches l resource_df) as [|r ms]; [done|].
  rewrite length_fmap. simpl. lia.
Qed.

Lemma filter_none {A} (P : A → Prop) `{∀ x, Decision (P x)} (l : list A) :
  (∀ x, x ∈ l → ¬ P x) → filter P l = [].
Proof.
  induction l as [|x l IH]; intros Hno; [done|].
  rewrite filter_cons_False by (apply Hno; left).
  apply IH. intros y Hy. apply Hno. by right.
Qed.

(** With pairwise distinct ids at most one resource matches an event. *)
Lemma matches_unique l resource_df :
  NoDup (id <$> resource_df) → (List.length (matches l resource_df) ≤ 1)%nat.
Proof.
  unfold matches. induction resource_df as [|r rs IH]; simpl; [lia|].
  rewrite NoDup_cons. intros [Hr Hrs].
  destruct (decide (id r = ResourceId l)) as [Heq|Hne].
  - rewrite filter_cons_True by done. simpl.
    assert (filter (λ r', id r' = ResourceId l) rs = []) as ->; [|simpl; lia].
    apply filter_none. intros r' Hin Hr'. apply Hr, list_elem_of_fmap.
    exists r'. split; [congruence | done].
  - rewrite filter_cons_False by done. auto.
Qed.

Lemma matches_none l resource_df :
  ResourceId l ∉ id <$> resource_df → matches l resource_df = [].
Proof.
  intros Hnot. apply filter_none. intros r Hin Hr. apply Hnot, list_elem_of_fmap. by exists r.
Qed.

(** With pairwise distinct ids an event contributes exactly one row. *)
Lemma rows_for_single l resource_df :
  NoDup (id <$> resource_df) →
  ∃ row, rows_for l resource_df = [row] ∧ log row = l ∧
         (ResourceId l ∉ id <$> resource_df → row = unmatched l).
Proof.
  intros Hnodup. pose proof (matches_unique l _ Hnodup) as Hlen.
  pose proof (matches_none l resource_df) as Hnone.
  unfold rows_for.
  destruct (matches l resource_df) as [|r [|r' ms]]; simpl in Hlen; [| |lia].
  - by exists (unmatched l).
  - exists (matched l r). repeat split; [].
    intros Hnot. by specialize (Hnone Hnot).
Qed.

Lemma merge_left_unique_ids sub_df resource_df :
  NoDup (id <$> resource_df) →
  log <$> merge_left sub_df resource_df = sub_df ∧
  Forall (λ row, ResourceId (log row) ∉ id <$> resource_df →
                 row = unmatched (log row))
         (merge_left sub_df resource_df).
Proof.
  intros Hnodup. induction sub_df as [|l sub_df [IHlog IHnull]].
  - by split.
  - rewrite merge_left_cons.
    destruct (rows_for_single l _ Hnodup) as (row & -> & Hlog & Hnull).
    rewrite fmap_app, IHlog, Forall_app. split.
    + simpl. by rewrite Hlog.
    + split; [|done]. constructor; [|done]. by rewrite Hlog.
Qed.

Lemma enrich_returns sub_df resource_df :
  ∃ rows, enrich sub_df resource_df = Returned rows ∧
          merged <$> rows = merge_left sub_df resource_df.
Proof. apply add_category_total. Qed.

End EnrichFacts.

(** ** Enrichment: count, frame and duplicate directory entries *)
Module EnrichClaims.
Import Analysis Samples CategoryFacts EnrichFacts.

(** C1, as amended: when the resource ids of the directory are
    pairwise distinct, [enrich] returns as many rows as there are
    events, the i-th row is the i-th event, and an event whose
    resourceId has no directory entry has null metadata columns. *)
Theorem enrich_preserves_count events directory :
  NoDup (id <$> directory) →
  ∃ rows, enrich events directory = Returned rows ∧
          List.length rows = List.length events ∧
          ∀ i e, events !! i = Some e →
            ∃ row, rows !! i = Some row ∧ log (merged row) = e ∧
              (ResourceId e ∉ id <$> directory →
               ResourceGroup (merged row) = None ∧
               Location (merged row) = None ∧
               Tags (merged row) = None).
Proof.
  intros Hnodup.
  destruct (enrich_returns events directory) as (rows & Hret & Hmerged).
  destruct (merge_left_unique_ids events directory Hnodup) as [Hlog Hnull].
  exists rows. split; [done|]. split.
  - rewrite <- Hlog, <- Hmerged at 1. by rewrite !length_fmap.
  - intros i e Hi. rewrite <- Hlog, <- Hmerged in Hi.
    rewrite !list_lookup_fmap in Hi.
    destruct (rows !! i) as [row|] eqn:Hrow; [|done].
    simpl in Hi. injection Hi as <-.
    exists row. split; [done|]. split; [done|]. intros Hnot.
    assert (merged row ∈ merge_left events directory) as Hin.
    { rewrite <- Hmerged.
      eapply list_elem_of_fmap_2, list_elem_of_lookup_2, Hrow. }
    rewrite Forall_forall in Hnull.
    by rewrite (Hnull _ Hin Hnot).
Qed.

Lemma enrich_preserves_count_witness :
  ∃ rows, enrich [ev_vm1; ev_unknown] [res_vm1; res_vm2] = Returned rows ∧
          List.length rows = List.length [ev_vm1; ev_unknown] ∧
          ∀ i e, [ev_vm1; ev_unknown] !! i = Some e →
            ∃ row, rows !! i = Some row ∧ log (merged row) = e ∧
              (ResourceId e ∉ id <$> [res_vm1; res_vm2] →
               ResourceGroup (merged row) = None ∧
               Location (merged row) = None ∧
               Tags (merged row) = None).
Proof.
  apply (enrich_preserves_count [ev_vm1; ev_unknown] [res_vm1; res_vm2]).
  apply (bool_decide_unpack _). vm_compute. reflexivity.
Defined.

(** C1 as stated fails on a directory holding two entries for one id:
    the single event comes out twice. *)
Lemma enrich_count_counterexample :
  ∃ rows, enrich [ev_vm1] [res_vm1; res_vm1_again] = Returned rows ∧
          List.length rows = 2 ∧
          List.length rows ≠ List.length [ev_vm1].
Proof. eexists. split; [reflexivity|]. split; [reflexivity|]. simpl. lia. Qed.

(** C10: with pairwise distinct resource ids, the five log columns of
    the enriched rows are, row by row and in the same order, the
    input events. *)
Theorem enrich_keeps_log_columns events directory :
  NoDup (id <$> directory) →
  ∃ rows, enrich events directory = Returned rows ∧
          (λ row, log (merged row)) <$> rows = events.
Proof.
  intros Hnodup.
  destruct (enrich_returns events directory) as (rows & Hret & Hmerged).
  destruct (merge_left_unique_ids events directory Hnodup) as [Hlog _].
  exists rows. split; [done|].
  transitivity (log <$> (merged <$> rows)).
  - by rewrite <- list_fmap_compose.
  - by rewrite Hmerged.
Qed.

Lemma enrich_keeps_log_columns_witness :
  ∃ rows, enrich [ev_unknown; ev_vm1; ev_vm1] [res_vm2; res_vm1] = Returned rows ∧
          (λ row, log (merged row)) <$> rows = [ev_unknown; ev_vm1; ev_vm1].
Proof.
  apply (enrich_keeps_log_columns [ev_unknown; ev_vm1; ev_vm1] [res_vm2; res_vm1]).
  apply (bool_decide_unpack _). vm_compute. reflexivity.
Defined.

(** Enrichment of a table followed by another is the enrichment of the
    first followed by that of the second. *)
Lemma add_category_app rows1 rows2 out1 out2 :
  add_category rows1 = Returned out1 →
  add_category rows2 = Returned out2 →
  add_category (rows1 ++ rows2) = Returned (out1 ++ out2).
Proof.
  revert out1. induction rows1 as [|row rows1 IH]; intros out1; simpl.
  - by intros [= <-].
  - destruct (category (OperationName (log row))) as [c| |]; simpl;
      try discriminate.
    destruct (add_category rows1) as [rest| |] eqn:Hrest; simpl;
      try discriminate.
    intros [= <-] H2. by rewrite (IH rest eq_refl H2).
Qed.

Lemma enrich_app events1 events2 directory out1 out2 :
  enrich events1 directory = Returned out1 →
  enrich events2 directory = Returned out2 →
  enrich (events1 ++ events2) directory = Returned (out1 ++ out2).
Proof.
  unfold enrich, merge_left. rewrite bind_app. apply add_category_app.
Qed.

(** The rows of one event whose resourceId has [r] as its last entry. *)
Lemma enrich_one_event e before r after :
  id r = ResourceId e →
  ResourceId e ∉ id <$> after →
  ∃ copies c,
    enrich [e] (before ++ r :: after)
    = Returned (copies ++ [mkEnrichedRow (matched e r) c]) ∧
    merged <$> copies
    = matched e <$> filter (λ r', id r' = ResourceId e) before.
Proof.
  intros Hid Hafter.
  destruct (enrich_returns [e] (before ++ r :: after)) as (out & Hret & Hmerged).
  assert (matches e (before ++ r :: after) = matches e before ++ [r]) as Hm.
  { pose proof (matches_none e after Hafter) as Hnone. unfold matches in *.
    rewrite filter_app, filter_cons_True by done. by rewrite Hnone. }
  assert (merge_left [e] (before ++ r :: after)
          = (matched e <$> matches e before) ++ [matched e r]) as Hrows.
  { rewrite merge_left_cons, app_nil_r. unfold rows_for. rewrite Hm.
    destruct (matches e before); simpl; [done|]. by rewrite fmap_app. }
  rewrite Hrows in Hmerged.
  apply fmap_app_inv in Hmerged as (rows & last & Hfront & Hlast & ->).
  destruct last as [|[m c] [|? ?]]; try discriminate.
  injection Hlast as Hlast. simpl in Hlast. subst m.
  exists rows, c. split; [done|]. by rewrite <- Hfront.
Qed.

(** C6, as amended: wherever an event stands in the table, it is
    emitted once per directory entry that carries its resourceId, in
    directory order and each copy with that entry's metadata, the last
    copy with the metadata of the last-registered entry; these copies
    stand between the enrichment of the events before it and the
    enrichment of the events after it. *)
Theorem enrich_duplicate_ids events_before e events_after before r after :
  id r = ResourceId e →
  ResourceId e ∉ id <$> after →
  ∃ rows_before copies c rows_after,
    enrich events_before (before ++ r :: after) = Returned rows_before ∧
    enrich events_after (before ++ r :: after) = Returned rows_after ∧
    enrich (events_before ++ e :: events_after) (before ++ r :: after)
    = Returned (rows_before ++ copies
                ++ mkEnrichedRow (matched e r) c :: rows_after) ∧
    merged <$> copies
    = matched e <$> filter (λ r', id r' = ResourceId e) before.
Proof.
  intros Hid Hafter.
  destruct (enrich_returns events_before (before ++ r :: after))
    as (rows_before & Hbefore & _).
  destruct (enrich_returns events_after (before ++ r :: after))
    as (rows_after & Hafter' & _).
  destruct (enrich_one_event e before r after Hid Hafter)
    as (copies & c & Hone & Hcopies).
  exists rows_before, copies, c, rows_after.
  split; [done|]. split; [done|]. split; [|done].
  rewrite (enrich_app events_before (e :: events_after) _ rows_before
             ((copies ++ [mkEnrichedRow (matched e r) c]) ++ rows_after));
    [by rewrite <- app_assoc|done|].
  by apply (enrich_app [e] events_after).
Qed.

Lemma enrich_duplicate_ids_witness :
  ∃ rows_before copies c rows_after,
    enrich [ev_unknown] ([res_vm1] ++ res_vm1_again :: [res_vm2])
    = Returned rows_before ∧
    enrich [ev_vm1] ([res_vm1] ++ res_vm1_again :: [res_vm2])
    = Returned rows_after ∧
    enrich ([ev_unknown] ++ ev_vm1 :: [ev_vm1])
           ([res_vm1] ++ res_vm1_again :: [res_vm2])
    = Returned (rows_before ++ copies
                ++ mkEnrichedRow (matched ev_vm1 res_vm1_again) c
                   :: rows_after) ∧
    merged <$> copies
    = matched ev_vm1 <$> filter (λ r', id r' = ResourceId ev_vm1) [res_vm1].
Proof.
  apply (enrich_duplicate_ids [ev_unknown] ev_vm1 [ev_vm1]
           [res_vm1] res_vm1_again [res_vm2]).
  - reflexivity.
  - apply (bool_decide_unpack _). vm_compute. reflexivity.
Defined.

(** C6 as stated fails: with two entries for one id the event gets two
    metadata attachments, the first of them from the entry registered
    first. *)
Lemma enrich_last_wins_counterexample :
  ∃ first_row last_row,
    enrich [ev_vm1] [res_vm1; res_vm1_again] = Returned [first_row; last_row] ∧
    ResourceGroup (merged first_row) = Some "rg-old" ∧
    ResourceGroup (merged last_row) = Some "rg-new".
Proof. do 2 eexists. split; [reflexivity|]. by split. Qed.

End EnrichClaims.

(** ** Order of group keys *)
Module KeyOrder.
Import Analysis.

Lemma compare_cases a b :
  (String_as_OT.compare a b = Eq ∧ a = b) ∨
  (String_as_OT.compare a b = Lt ∧ str_lt a b) ∨
  (String_as_OT.compare a b = Gt ∧ str_lt b a).
Proof.
  destruct (String_as_OT.compare_spec a b) as [Heq|Hlt|Hgt]; auto.
Qed.

Lemma str_lt_irrefl a : ¬ str_lt a a.
Proof. apply (StrictOrder_Irreflexive (R := String_as_OT.lt)). Qed.

Lemma str_lt_trans a b c : str_lt a b → str_lt b c → str_lt a c.
Proof. apply (StrictOrder_Transitive (R := String_as_OT.lt)). Qed.

Lemma str_le_lt_eq a b : str_le a b ↔ str_lt a b ∨ a = b.
Proof.
  unfold str_le. split.
  - destruct (compare_cases a b) as [[-> ?]|[[-> ?]|[-> ?]]]; auto. done.
  - intros [Hlt| ->].
    + unfold str_lt in Hlt. by rewrite Hlt.
    + destruct (compare_cases b b) as [[-> ?]|[[-> ?]|[? Hbb]]]; try done.
      by destruct (str_lt_irrefl b).
Qed.

Global Instance str_le_total : Total str_le.
Proof.
  intros a b. rewrite !str_le_lt_eq.
  destruct (compare_cases a b) as [[_ ?]|[[_ ?]|[_ ?]]]; auto.
Qed.

Global Instance str_le_trans : Transitive str_le.
Proof.
  intros a b c. rewrite !str_le_lt_eq.
  intros [Hab| ->] [Hbc| ->]; eauto using str_lt_trans.
Qed.

Global Instance str_le_antisymm : AntiSymm (=) str_le.
Proof.
  intros a b. rewrite !str_le_lt_eq.
  intros [Hab| ->] [Hba|Heq]; try done.
  destruct (str_lt_irrefl a). by eapply str_lt_trans.
Qed.

(** A list sorted by [str_le] without repetition is strictly ascending. *)
Lemma sorted_nodup_strict keys :
  StronglySorted str_le keys → NoDup keys → StronglySorted str_lt keys.
Proof.
  induction 1 as [|k keys Hsorted IH Hall]; [constructor|].
  rewrite NoDup_cons. intros [Hk Hnodup].
  constructor; [auto|].
  rewrite Forall_forall in Hall |- *. intros k' Hin.
  destruct (proj1 (str_le_lt_eq k k') (Hall k' Hin)) as [Hlt| ->]; done.
Qed.

End KeyOrder.

(** ** Summaries: [groupby(...).size()] *)
Module SummaryFacts.
Import Analysis KeyOrder.

Lemma unique_from_spec seen col :
  NoDup (unique_from seen col) ∧
  ∀ x, x ∈ unique_from seen col ↔ x ∈ col ∧ x ∉ seen.
Proof.
  revert seen. induction col as [|y col IH]; intros seen; simpl.
  - split; [constructor|]. intros x. rewrite elem_of_nil. tauto.
  - destruct (decide (y ∈ seen)) as [Hy|Hy].
    + destruct (IH seen) as [Hnodup Hmem]. split; [done|].
      intros x. rewrite Hmem, elem_of_cons.
      split; [tauto|]. intros [[->|?] ?]; tauto.
    + destruct (IH ({[y]} ∪ seen)) as [Hnodup Hmem]. split.
      * constructor; [|done]. rewrite Hmem. intros [_ Hnot].
        by apply Hnot, elem_of_union_l, elem_of_singleton.
      * intros x. rewrite elem_of_cons, Hmem, elem_of_cons.
        rewrite elem_of_union, elem_of_singleton.
        destruct (decide (x = y)) as [->|Hne]; tauto.
Qed.

Lemma unique_NoDup col : NoDup (unique col).
Proof. apply unique_from_spec. Qed.

Lemma unique_elem_of col x : x ∈ unique col ↔ x ∈ col.
Proof.
  unfold unique. rewrite (proj2 (unique_from_spec ∅ col)).
  split; [tauto|]. intros Hx. split; [done|]. apply not_elem_of_empty.
Qed.

Lemma groupby_size_keys col : (groupby_size col).*1 = group_keys col.
Proof.
  unfold groupby_size, group_keys.
  rewrite <- list_fmap_compose. apply list_fmap_id.
Qed.

Lemma group_keys_NoDup col : NoDup (group_keys col).
Proof.
  unfold group_keys. rewrite merge_sort_Permutation. apply unique_NoDup.
Qed.

Lemma group_keys_elem_of col x : x ∈ group_keys col ↔ x ∈ col.
Proof.
  unfold group_keys. rewrite merge_sort_Permutation. apply unique_elem_of.
Qed.

Lemma group_keys_sorted col : StronglySorted str_lt (group_keys col).
Proof.
  apply sorted_nodup_strict; [|apply group_keys_NoDup].
  apply StronglySorted_merge_sort; apply _.
Qed.

Lemma group_keys_Permutation col col' :
  col ≡ₚ col' → group_keys col = group_keys col'.
Proof.
  intros Hperm. unfold group_keys.
  apply (Sorted_unique str_le).
  - apply Sorted_merge_sort, _.
  - apply Sorted_merge_sort, _.
  - rewrite !merge_sort_Permutation.
    apply NoDup_Permutation; [apply unique_NoDup..|].
    intros x. rewrite !unique_elem_of. by rewrite Hperm.
Qed.

Lemma group_size_Permutation key col col' :
  col ≡ₚ col' → group_size key col = group_size key col'.
Proof. intros Hperm. unfold group_size. by rewrite Hperm. Qed.

Lemma groupby_size_Permutation col col' :
  col ≡ₚ col' → groupby_size col = groupby_size col'.
Proof.
  intros Hperm. unfold groupby_size.
  fold (group_keys col) (group_keys col').
  rewrite (group_keys_Permutation col col' Hperm).
  apply list_fmap_ext. intros _ key _.
  by rewrite (group_size_Permutation key col col' Hperm).
Qed.

Lemma group_size_cons key x col :
  group_size key (x :: col)
  = (if decide (x = key) then 1 else 0) + group_size key col.
Proof.
  unfold group_size. rewrite filter_cons.
  by destruct (decide (x = key)).
Qed.

Lemma sum_list_fmap_cons {A} (f : A → nat) x (l : list A) :
  sum_list (f <$> x :: l) = f x + sum_list (f <$> l).
Proof. reflexivity. Qed.

Lemma sum_indicator_absent x (keys : list string) :
  x ∉ keys →
  sum_list ((λ key, if decide (x = key) then 1 else 0) <$> keys) = 0.
Proof.
  induction keys as [|k keys IH]; [done|].
  rewrite not_elem_of_cons. intros [Hne Hk].
  rewrite sum_list_fmap_cons, decide_False by done. by rewrite IH.
Qed.

(** Among distinct keys exactly one equals a value that is a key. *)
Lemma sum_indicator x (keys : list string) :
  NoDup keys → x ∈ keys →
  sum_list ((λ key, if decide (x = key) then 1 else 0) <$> keys) = 1.
Proof.
  induction keys as [|k keys IH]; [by rewrite elem_of_nil|].
  rewrite NoDup_cons, elem_of_cons. intros [Hk Hnodup] Hin.
  rewrite sum_list_fmap_cons.
  destruct (decide (x = k)) as [->|Hne].
  - by rewrite sum_indicator_absent.
  - destruct Hin as [?|Hin]; [done|]. by rewrite IH.
Qed.

Lemma sum_list_fmap_add {A} (f g : A → nat) (l : list A) :
  sum_list ((λ x, f x + g x) <$> l) = sum_list (f <$> l) + sum_list (g <$> l).
Proof.
  induction l as [|x l IH]; [done|]. rewrite !sum_list_fmap_cons. lia.
Qed.

(** Group sizes over any duplicate-free list of keys that covers the
    column add up to the length of the column. *)
Lemma group_sizes_sum (keys col : list string) :
  NoDup keys → (∀ x, x ∈ col → x ∈ keys) →
  sum_list ((λ key, group_size key col) <$> keys) = List.length col.
Proof.
  intros Hnodup. induction col as [|x col IH]; intros Hcover.
  - clear Hnodup Hcover. induction keys as [|k keys IHk]; [done|].
    rewrite sum_list_fmap_cons. by rewrite IHk.
  - rewrite (list_fmap_ext (λ key, group_size key (x :: col))
               (λ key, (if decide (x = key) then 1 else 0)
                       + group_size key col) keys)
      by (intros; apply group_size_cons).
    rewrite sum_list_fmap_add, sum_indicator, IH; try done.
    + intros y Hy. apply Hcover. by right.
    + apply Hcover. by left.
Qed.

Lemma groupby_size_counts col :
  (groupby_size col).*2 = (λ key, group_size key col) <$> group_keys col.
Proof.
  unfold groupby_size, group_keys. by rewrite <- list_fmap_compose.
Qed.

Lemma groupby_size_sum col :
  sum_list (groupby_size col).*2 = List.length col.
Proof.
  rewrite groupby_size_counts. apply group_sizes_sum.
  - apply group_keys_NoDup.
  - intros x. by rewrite group_keys_elem_of.
Qed.

Lemma column_length f rows : List.length (column f rows) = List.length rows.
Proof. unfold column. apply length_fmap. Qed.

End SummaryFacts.

(** ** Summaries: totals, order and permuted input *)
Module SummaryClaims.
Import Analysis Spec Samples KeyOrder SummaryFacts.

Example scenario_operation_summary :
  operation_summary (summarize scenario)
  = [ ("Microsoft.Compute/vm1", 1); ("Microsoft.Compute/vm2", 1);
      ("Microsoft.Storage/acct1", 1) ].
Proof. vm_compute. reflexivity. Qed.

Example scenario_severity_summary :
  severity_summary (summarize scenario) = [ ("Error", 2); ("Info", 1) ].
Proof. vm_compute. reflexivity. Qed.

Example summarize_empty : summarize [] = mkSummary [] [] [].
Proof. reflexivity. Qed.

(** C7: in each of the three summaries the counts add up to the
    number of rows handed to [summarize]. *)
Theorem summarize_counts_sum rows :
  sum_list (operation_summary (summarize rows)).*2 = List.length rows ∧
  sum_list (severity_summary (summarize rows)).*2 = List.length rows ∧
  sum_list (resource_summary (summarize rows)).*2 = List.length rows.
Proof.
  unfold summarize; simpl.
  rewrite !groupby_size_sum, !column_length. done.
Qed.

(** C8: [summarize] of a permutation of the rows is the same three
    tables, row for row. *)
Theorem summarize_permutation rows rows' :
  rows ≡ₚ rows' → summarize rows' = summarize rows.
Proof.
  intros Hperm. unfold summarize.
  assert (∀ f, column f rows ≡ₚ column f rows') as Hcol.
  { intros f. unfold column. by rewrite Hperm. }
  f_equal; symmetry; apply groupby_size_Permutation, Hcol.
Qed.

Lemma summarize_permutation_witness :
  summarize ([row_of "Write" "Info" "/r/2"]
             ++ [row_of "Delete" "Error" "/r/1"; row_of "Write" "Error" "/r/1"])
  = summarize ([row_of "Delete" "Error" "/r/1"; row_of "Write" "Error" "/r/1"]
               ++ [row_of "Write" "Info" "/r/2"]).
Proof.
  apply (summarize_permutation
           ([row_of "Delete" "Error" "/r/1"; row_of "Write" "Error" "/r/1"]
            ++ [row_of "Write" "Info" "/r/2"])).
  apply Permutation_app_comm.
Defined.

(** C5 as stated fails: the group with the smaller count comes first
    when its key is the smaller one. *)
Lemma summary_order_counterexample :
  operation_summary (summarize skewed) = [ ("Delete", 1); ("Write", 2) ] ∧
  ¬ Sorted count_desc_key_asc (operation_summary (summarize skewed)).
Proof.
  assert (operation_summary (summarize skewed)
          = [ ("Delete", 1); ("Write", 2) ]) as Heq
    by (vm_compute; reflexivity).
  split; [done|]. rewrite Heq. intros Hsorted.
  apply Sorted_inv in Hsorted as [_ Hhd].
  apply HdRel_inv in Hhd as [Hlt|[Heq' _]]; simpl in *; lia.
Qed.


Lemma groupby_size_key_column f rows key :
  key ∈ (groupby_size (column f rows)).*1 ↔ key ∈ column f rows.
Proof. by rewrite groupby_size_keys, group_keys_elem_of. Qed.

(** C5, as amended: each of the three summary tables has one row per
    distinct group key, that is, its keys are exactly the values of the
    grouped column, and it is ordered by strictly ascending group key
    (so no key is repeated), whatever the counts. *)
Theorem summarize_sorted_by_key rows :
  (StronglySorted str_lt (operation_summary (summarize rows)).*1 ∧
   ∀ key, key ∈ (operation_summary (summarize rows)).*1
          ↔ key ∈ column OperationName rows) ∧
  (StronglySorted str_lt (severity_summary (summarize rows)).*1 ∧
   ∀ key, key ∈ (severity_summary (summarize rows)).*1
          ↔ key ∈ column Level rows) ∧
  (StronglySorted str_lt (resource_summary (summarize rows)).*1 ∧
   ∀ key, key ∈ (resource_summary (summarize rows)).*1
          ↔ key ∈ column ResourceId rows).
Proof.
  unfold summarize; simpl.
  split_and!; try (intros key; apply groupby_size_key_column);
    rewrite groupby_size_keys; apply group_keys_sorted.
Qed.

(** Each row of a summary is a key of the column with its number of
    occurrences, and every value of the column has a row. *)
Lemma groupby_size_rows col key n :
  (key, n) ∈ groupby_size col ↔ key ∈ col ∧ n = group_size key col.
Proof.
  unfold groupby_size. fold (group_keys col).
  rewrite list_elem_of_fmap. split.
  - intros (k & [= -> ->] & Hk). by rewrite <- group_keys_elem_of.
  - intros [Hk ->]. exists key. by rewrite group_keys_elem_of.
Qed.

End SummaryClaims.

(** ** Driver: one failure ends the run *)
Module MainFacts.
Import Analysis Main Samples EnrichFacts.

(** C2 as stated fails: with the directory of A down the run ends in
    the handler, although B alone is analysed without error; and with
    the stream unavailable the run ends the same way. *)
Lemma failure_isolation_counterexample :
  main_with (Returned ["sub-A"; "sub-B"]) ingest_one directory_A_down
    = LogAnalysisFailed (ServiceError "directory fetch failed") ∧
  (∃ log_data analysis_results,
      main_with (Returned ["sub-B"]) ingest_one directory_A_down
      = ReportRequested log_data analysis_results ∧
      Dict.keys analysis_results = ["sub-B"]) ∧
  main 10 (Returned ["sub-A"; "sub-B"]) unavailable directory_A_down
    = LogAnalysisFailed (ServiceError "stream unavailable").
Proof.
  split; [reflexivity|]. split; [|reflexivity].
  do 2 eexists. split; reflexivity.
Qed.

(** With the collector of the script no run reaches the report: the
    first subscription is never left. *)
Lemma main_never_reports fuel s subscriptions stream resources_list ld ar :
  main fuel (Returned (s :: subscriptions)) stream resources_list
  ≠ ReportRequested ld ar.
Proof.
  unfold main, main_with, main_body. simpl.
  by destruct (CollectorFacts.ingest_cases fuel stream s) as [->|[e ->]].
Qed.

(** With the collector of the script, a failure of the consumer client
    while the first subscription is read ends the run. *)
Lemma main_stream_fault k fuel s subscriptions stream resources_list e :
  (∀ j e', j < k → stream j ≠ Collector.Fault e') →
  stream k = Collector.Fault e →
  k < fuel →
  main fuel (Returned (s :: subscriptions)) stream resources_list
  = LogAnalysisFailed e.
Proof.
  intros Hlive Hfault Hk.
  pose proof (CollectorFacts.receive_fault k fuel stream 0 [] e Hlive Hfault Hk)
    as Hraise.
  unfold main, main_with, main_body. simpl.
  unfold Collector.ingest_subscription_logs.
  destruct (Collector.receive fuel stream 0 []) as [r df']. simpl in Hraise.
  by subst r.
Qed.

End MainFacts.

(** * Further properties of the script *)

(** ** Collector: what the table holds *)
Module CollectorMore.
Import Collector Arrival Samples MoreSamples CollectorFacts.

Lemma on_event_table df event :
  (on_event df event).2 = df ++ from_option (λ row, [row]) [] (accepted_row event).
Proof.
  unfold on_event, accepted_row.
  destruct (event_dict event); simpl; by rewrite ?app_nil_r.
Qed.

Lemma deliveries_rows df events :
  deliveries df events = df ++ omap accepted_row events.
Proof.
  revert df. induction events as [|event events IH]; intros df.
  - by rewrite app_nil_r.
  - rewrite deliveries_cons, IH, on_event_table. simpl.
    destruct (accepted_row event); simpl; by rewrite <- ?app_assoc, ?app_nil_r.
Qed.

(** While [receive] runs, the table is the initial table followed by
    the rows of the accepted events handed over so far, in the order
    of their arrival; rejected events leave no trace in it. *)
Theorem receive_keeps_arrival_order fuel stream pos df :
  (receive fuel stream pos df).2
  = df ++ omap accepted_row (delivered fuel stream pos).
Proof. by rewrite receive_table, deliveries_rows. Qed.

(** [on_event] raises [KeyError] on the first annotation key, in the
    order timestamp, resourceId, operationName, level, that the event
    lacks, and leaves the table as it was. *)
Theorem on_event_first_missing_key df event before k after :
  annotation_keys = before ++ k :: after →
  (∀ k', k' ∈ before → is_Some (annotations event !! k')) →
  annotations event !! k = None →
  on_event df event = (Raised (KeyError k), df).
Proof.
  intros Hkeys Hbefore Hk.
  assert (event_dict event = Raised (KeyError k)) as Hraise.
  { unfold event_dict, getitem. unfold annotation_keys in Hkeys.
    destruct before as [|k1 [|k2 [|k3 [|k4 before]]]];
      simplify_eq/=; try (by destruct before).
    - by rewrite Hk.
    - destruct (Hbefore key_time) as [? ->]; [by left|]. simpl. by rewrite Hk.
    - destruct (Hbefore key_time) as [? ->]; [by left|].
      destruct (Hbefore key_resource) as [? ->]; [by right; left|].
      simpl. by rewrite Hk.
    - destruct (Hbefore key_time) as [? ->]; [by left|].
      destruct (Hbefore key_resource) as [? ->]; [by right; left|].
      destruct (Hbefore key_operation) as [? ->]; [by do 2 right; left|].
      simpl. by rewrite Hk. }
  unfold on_event. by rewrite Hraise.
Qed.

Lemma on_event_first_missing_key_witness :
  on_event [] no_level_event = (Raised (KeyError key_level), []).
Proof.
  apply (on_event_first_missing_key [] no_level_event
           [key_time; key_resource; key_operation] key_level []).
  - reflexivity.
  - intros k' Hk'. apply (bool_decide_unpack _).
    set_unfold. by destruct Hk' as [->|[->|[->|[]]]]; vm_compute.
  - vm_compute. reflexivity.
Defined.

End CollectorMore.

(** ** Driver: what a run can end with *)
Module MainMore.
Import Analysis Main Samples MoreSamples EnrichFacts SummaryFacts MainFacts.

Lemma main_stream_fault_witness :
  main 5 (Returned ["sub-A"; "sub-B"]) late_fault directory_up
  = LogAnalysisFailed (ServiceError "connection lost").
Proof.
  apply (main_stream_fault 2 5 "sub-A" ["sub-B"] late_fault directory_up).
  - intros j e' Hj. unfold late_fault. by rewrite decide_True.
  - reflexivity.
  - lia.
Defined.

(** With the collector of the script, [main] reaches the report
    generator only when there is no subscription at all, and then with
    two empty dicts. *)
Theorem main_reports_only_without_subscriptions
    fuel subscriptions stream resources_list log_data analysis_results :
  main fuel (Returned subscriptions) stream resources_list
  = ReportRequested log_data analysis_results
  ↔ subscriptions = [] ∧ log_data = [] ∧ analysis_results = [].
Proof.
  destruct subscriptions as [|s subscriptions].
  - change (main fuel (Returned []) stream resources_list)
      with (ReportRequested [] []).
    split; [by intros [= <- <-] | by intros (_ & -> & ->)].
  - split; [|by intros [? _]].
    intros Hmain. by apply main_never_reports in Hmain.
Qed.

Lemma keys_setitem_present {V} k (v : V) d :
  k ∈ Dict.keys d → Dict.keys (Dict.setitem k v d) = Dict.keys d.
Proof.
  unfold Dict.keys. induction d as [|[k0 v0] d IH]; simpl.
  - by rewrite elem_of_nil.
  - rewrite elem_of_cons. intros Hin.
    destruct (decide (k0 = k)) as [->|Hne]; simpl; [done|].
    f_equal. apply IH. by destruct Hin.
Qed.

Lemma setitem_absent {V} k (v : V) d :
  k ∉ Dict.keys d → Dict.setitem k v d = d ++ [(k, v)].
Proof.
  unfold Dict.keys. induction d as [|[k0 v0] d IH]; simpl; [done|].
  rewrite not_elem_of_cons. intros [Hne Hnot].
  rewrite decide_False by done. by rewrite IH.
Qed.

Lemma setitem_Forall {V} (P : string * V → Prop) k v d :
  Forall P d → P (k, v) → Forall P (Dict.setitem k v d).
Proof.
  intros Hd Hkv. induction Hd as [|[k0 v0] d H0 Hd IH]; simpl.
  - by constructor.
  - destruct (decide (k0 = k)); by constructor.
Qed.

Lemma unique_from_seen seen seen' col :
  (∀ x, x ∈ seen ↔ x ∈ seen') → unique_from seen col = unique_from seen' col.
Proof.
  revert seen seen'. induction col as [|x col IH]; intros seen seen' Hsame; [done|].
  simpl. destruct (decide (x ∈ seen)) as [Hx|Hx].
  - rewrite decide_True by (by apply Hsame). by apply IH.
  - rewrite decide_False by (by rewrite <- Hsame). f_equal. apply IH.
    intros y. rewrite !elem_of_union, Hsame. done.
Qed.

Section ingest.
Variable ingest : string → outcome DataFrame.

Lemma ingest_all_stores subscriptions log_data log_data' :
  ingest_all ingest subscriptions log_data = Returned log_data' →
  Dict.keys log_data'
  = Dict.keys log_data
    ++ unique_from (list_to_set (Dict.keys log_data)) subscriptions ∧
  (Forall (λ kv, ingest kv.1 = Returned kv.2) log_data →
   Forall (λ kv, ingest kv.1 = Returned kv.2) log_data').
Proof.
  revert log_data.
  induction subscriptions as [|s subscriptions IH]; intros log_data; simpl.
  - intros [= <-]. by rewrite app_nil_r.
  - destruct (ingest s) as [df| |] eqn:Hs; simpl; try discriminate.
    intros Hret. destruct (IH _ Hret) as [Hkeys Hall]. split.
    + rewrite Hkeys.
      destruct (decide (s ∈ list_to_set (C := gset string) (Dict.keys log_data)))
        as [Hin|Hnot].
      * rewrite elem_of_list_to_set in Hin.
        by rewrite keys_setitem_present.
      * rewrite elem_of_list_to_set in Hnot.
        rewrite setitem_absent by done. unfold Dict.keys.
        rewrite fmap_app, <- app_assoc. simpl. do 2 f_equal.
        apply unique_from_seen. intros x.
        rewrite elem_of_union, elem_of_singleton, !elem_of_list_to_set.
        rewrite elem_of_app, list_elem_of_singleton. tauto.
    + intros Hld. apply Hall, setitem_Forall; done.
Qed.
End ingest.

(** When every collector call returns, [log_data] holds one entry per
    distinct subscription id, in the order of first appearance, and
    each entry is a table its collector returned. *)
Theorem ingest_all_keys ingest subscriptions log_data :
  ingest_all ingest subscriptions [] = Returned log_data →
  Dict.keys log_data = unique subscriptions ∧
  Forall (λ kv, ingest kv.1 = Returned kv.2) log_data.
Proof.
  intros Hret. destruct (ingest_all_stores ingest _ _ _ Hret) as [Hkeys Hall].
  split; [|by apply Hall]. rewrite Hkeys. simpl.
  apply unique_from_seen. intros x. set_solver.
Qed.

Lemma ingest_all_keys_witness :
  Dict.keys [("sub-A", [ev_vm1]); ("sub-B", [ev_vm1])]
  = unique ["sub-A"; "sub-B"; "sub-A"] ∧
  Forall (λ kv, ingest_one kv.1 = Returned kv.2)
         [("sub-A", [ev_vm1]); ("sub-B", [ev_vm1])].
Proof.
  apply (ingest_all_keys ingest_one ["sub-A"; "sub-B"; "sub-A"]).
  reflexivity.
Defined.

Section results.
Variable resources_list : string → outcome (list Resource).

Lemma process_items_results items acc results :
  NoDup (Dict.keys acc ++ Dict.keys items) →
  process_items resources_list items acc = Returned results →
  ∃ outs, results = acc ++ outs ∧
    Forall2 (λ item out, out.1 = item.1 ∧
               analyse resources_list item.1 item.2 = Returned out.2)
            items outs.
Proof.
  revert acc. induction items as [|[sub_id sub_df] items IH]; intros acc; simpl.
  - intros _ [= <-]. exists []. by rewrite app_nil_r.
  - intros Hnodup.
    destruct (analyse resources_list sub_id sub_df) as [r| |] eqn:Hr;
      simpl; try discriminate.
    intros Hret.
    assert (sub_id ∉ Dict.keys acc) as Hfresh.
    { apply NoDup_app in Hnodup as (_ & Hdisj & _).
      intros Hin. apply (Hdisj _ Hin). unfold Dict.keys. simpl. by left. }
    rewrite setitem_absent in Hret by done.
    destruct (IH (acc ++ [(sub_id, r)])) as (outs & -> & Hall); [|done|].
    { unfold Dict.keys in *. rewrite fmap_app, <- app_assoc. done. }
    exists ((sub_id, r) :: outs). split; [by rewrite <- app_assoc|].
    by constructor.
Qed.
End results.

(** When [process_log_data] returns, [analysis_results] has one entry
    per entry of [log_data], under the same key and in the same order,
    and each holds the analysis of that subscription's table. *)
Theorem process_log_data_results resources_list log_data results :
  NoDup (Dict.keys log_data) →
  process_log_data resources_list log_data = Returned results →
  Forall2 (λ item out, out.1 = item.1 ∧
             analyse resources_list item.1 item.2 = Returned out.2)
          log_data results.
Proof.
  intros Hnodup Hret.
  destruct (process_items_results resources_list log_data [] results)
    as (outs & -> & Hall); done.
Qed.

Lemma process_log_data_results_witness :
  ∃ results,
    process_log_data directory_up [("sub-A", [ev_vm1]); ("sub-B", [])]
    = Returned results ∧
    Forall2 (λ item out, out.1 = item.1 ∧
               analyse directory_up item.1 item.2 = Returned out.2)
            [("sub-A", [ev_vm1]); ("sub-B", [])] results.
Proof.
  eexists. split; [reflexivity|].
  apply (process_log_data_results directory_up
           [("sub-A", [ev_vm1]); ("sub-B", [])]).
  - apply (bool_decide_unpack _). vm_compute. reflexivity.
  - reflexivity.
Defined.

End MainMore.

(** ** Text: [split] and the category *)
Module TextMore.
Import Analysis CategoryFacts.

Lemma concat_cons_cons sep x y ys :
  concat sep (x :: y :: ys) = (x ++ sep ++ concat sep (y :: ys))%string.
Proof. reflexivity. Qed.

Lemma split_concat sep s :
  concat (String sep EmptyString) (split sep s) = s.
Proof.
  induction s as [|c s IH]; [done|].
  cbn [split]. destruct (split sep s) as [|piece pieces] eqn:Hsplit;
    [by destruct (split_nonempty sep s)|].
  destruct (decide (c = sep)) as [->|Hne].
  - rewrite concat_cons_cons, IH. done.
  - destruct pieces as [|piece' pieces].
    + simpl in *. by rewrite IH.
    + rewrite concat_cons_cons. rewrite concat_cons_cons in IH.
      by rewrite <- IH.
Qed.

Lemma split_pieces_free sep s :
  Forall (λ piece, index 0 (String sep EmptyString) piece = None) (split sep s).
Proof.
  induction s as [|c s IH]; [by repeat constructor|].
  cbn [split]. destruct (decide (c = sep)) as [->|Hne].
  - by constructor.
  - destruct (split sep s) as [|piece pieces] eqn:Hsplit;
      [by destruct (split_nonempty sep s)|].
    apply Forall_cons in IH as [Hpiece Hpieces].
    constructor; [|done].
    cbn [index prefix]. destruct (ascii_dec sep c) as [->|_]; [done|].
    by rewrite Hpiece.
Qed.

(** Joining the pieces with the separator gives the string back, and no
    piece contains the separator: ['/'.join(s.split('/')) == s]. *)
Theorem split_join sep s :
  concat (String sep EmptyString) (split sep s) = s ∧
  Forall (λ piece, index 0 (String sep EmptyString) piece = None) (split sep s).
Proof. split; [apply split_concat | apply split_pieces_free]. Qed.

Lemma prefix_refl s : prefix s s = true.
Proof.
  induction s as [|c s IH]; [done|]. simpl.
  by destruct (ascii_dec c c).
Qed.

Lemma split_head_prefix sep s piece pieces :
  split sep s = piece :: pieces → prefix piece s = true.
Proof.
  revert piece pieces. induction s as [|c s IH]; intros piece pieces.
  - by intros [= <- <-].
  - cbn [split]. destruct (decide (c = sep)) as [->|Hne].
    + by intros [= <- <-].
    + destruct (split sep s) as [|piece' pieces'] eqn:Hsplit;
        [by destruct (split_nonempty sep s)|].
      intros [= <- <-]. simpl. destruct (ascii_dec c c); [|done].
      by eapply IH.
Qed.

Lemma split_no_separator sep s :
  index 0 (String sep EmptyString) s = None → split sep s = [s].
Proof.
  induction s as [|c s IH]; [done|].
  cbn [index prefix split]. destruct (ascii_dec sep c) as [->|Hne].
  - by destruct s.
  - rewrite decide_False by congruence.
    destruct (index 0 (String sep EmptyString) s); [done|].
    intros _. by rewrite IH.
Qed.

(** The category is defined for every operation name; it contains no
    '/', it is a prefix of the name, and it is its own category. *)
Theorem category_is_slash_free_prefix op :
  ∃ c, category op = Returned c ∧
       index 0 "/" c = None ∧
       prefix c op = true ∧
       category c = Returned c.
Proof.
  unfold category.
  destruct (split "/"%char op) as [|piece pieces] eqn:Hsplit;
    [by destruct (split_nonempty "/"%char op)|].
  pose proof (split_pieces_free "/"%char op) as Hfree.
  rewrite Hsplit in Hfree. apply Forall_cons in Hfree as [Hfree _].
  exists piece. split; [done|]. split; [done|]. split.
  - by eapply split_head_prefix.
  - by rewrite split_no_separator.
Qed.

End TextMore.

(** ** Enrichment for any directory *)
Module EnrichMore.
Import Analysis CategoryFacts EnrichFacts.

Lemma rows_for_elem_of l resource_df row :
  row ∈ rows_for l resource_df ↔
  (row = unmatched l ∧ ResourceId l ∉ id <$> resource_df) ∨
  (∃ r, r ∈ resource_df ∧ id r = ResourceId l ∧ row = matched l r).
Proof.
  unfold rows_for.
  destruct (matches l resource_df) as [|r0 ms] eqn:Hm.
  - rewrite list_elem_of_singleton. split.
    + intros ->. left. split; [done|]. intros Hin.
      apply list_elem_of_fmap in Hin as (r & Hid & Hr).
      assert (r ∈ matches l resource_df) as Hin
        by (by apply list_elem_of_filter).
      rewrite Hm in Hin. by apply elem_of_nil in Hin.
    + intros [[-> _]|(r & Hr & Hid & _)]; [done|].
      assert (r ∈ matches l resource_df) as Hin
        by (by apply list_elem_of_filter).
      rewrite Hm in Hin. by apply elem_of_nil in Hin.
  - rewrite <- Hm. rewrite list_elem_of_fmap. split.
    + intros (r & -> & Hr). apply list_elem_of_filter in Hr as [Hid Hr].
      right. by exists r.
    + intros [[_ Hnot]|(r & Hr & Hid & ->)].
      * rewrite (matches_none l resource_df Hnot) in Hm. discriminate.
      * exists r. split; [done|]. by apply list_elem_of_filter.
Qed.

(** The merged table is the left outer join: a row is in it exactly
    when it is an event with the metadata of a resource of the same id,
    or an event without any such resource and with null metadata. *)
Theorem merge_left_is_left_join sub_df resource_df row :
  row ∈ merge_left sub_df resource_df ↔
  ∃ l, l ∈ sub_df ∧
    ((row = unmatched l ∧ ResourceId l ∉ id <$> resource_df) ∨
     (∃ r, r ∈ resource_df ∧ id r = ResourceId l ∧ row = matched l r)).
Proof.
  unfold merge_left. rewrite list_elem_of_bind.
  split; intros (l & H1 & H2); exists l.
  - split; [done|]. by apply rows_for_elem_of.
  - split; [|done]. by apply rows_for_elem_of.
Qed.

Lemma rows_for_log_column l resource_df :
  log <$> rows_for l resource_df
  = replicate (Nat.max 1 (List.length (matches l resource_df))) l.
Proof.
  symmetry. apply replicate_as_Forall. split.
  - by rewrite length_fmap, rows_for_length.
  - apply Forall_fmap. eapply Forall_impl; [apply rows_for_log|]. done.
Qed.

Lemma merge_left_log_column sub_df resource_df :
  log <$> merge_left sub_df resource_df
  = l ← sub_df;
    replicate (Nat.max 1 (List.length (matches l resource_df))) l.
Proof.
  induction sub_df as [|l sub_df IH]; [done|].
  rewrite merge_left_cons, fmap_app, bind_cons, IH.
  by rewrite rows_for_log_column.
Qed.

Lemma bind_length_ge {A} (f : A → list A) (l : list A) :
  (∀ x, (1 ≤ List.length (f x))%nat) → (List.length l ≤ List.length (l ≫= f))%nat.
Proof.
  intros Hf. induction l as [|x l IH]; [done|].
  rewrite bind_cons, length_app. simpl. specialize (Hf x). lia.
Qed.

(** For every directory, [enrich] returns, and its log columns are the
    input events in input order, each repeated once per directory entry
    with its resourceId and once when there is none; so the output is
    never shorter than the input. *)
Theorem enrich_repeats_events events directory :
  ∃ rows, enrich events directory = Returned rows ∧
    (λ row, log (merged row)) <$> rows
    = (e ← events;
       replicate (Nat.max 1 (List.length (matches e directory))) e) ∧
    (List.length events ≤ List.length rows)%nat.
Proof.
  destruct (enrich_returns events directory) as (rows & Hret & Hmerged).
  assert ((λ row, log (merged row)) <$> rows
          = (e ← events;
             replicate (Nat.max 1 (List.length (matches e directory))) e))
    as Hlog.
  { rewrite <- merge_left_log_column, <- Hmerged.
    by rewrite <- list_fmap_compose. }
  exists rows. split; [done|]. split; [done|].
  rewrite <- (length_fmap (λ row, log (merged row)) rows), Hlog.
  apply bind_length_ge. intros e. rewrite length_replicate. lia.
Qed.

Lemma add_category_column rows out :
  add_category rows = Returned out →
  Forall (λ row, category (OperationName (log (merged row)))
                 = Returned (Category row)) out.
Proof.
  revert out. induction rows as [|row rows IH]; intros out; simpl.
  - intros [= <-]. constructor.
  - destruct (category (OperationName (log row))) as [c| |] eqn:Hc;
      simpl; try discriminate.
    destruct (add_category rows) as [rest| |]; simpl; try discriminate.
    intros [= <-]. constructor; [done|]. by apply IH.
Qed.

(** In every row [enrich] returns, the Category column is the category
    of that row's operation name. *)
Theorem enrich_category_column events directory :
  ∃ rows, enrich events directory = Returned rows ∧
    Forall (λ row, category (OperationName (log (merged row)))
                   = Returned (Category row)) rows.
Proof.
  destruct (enrich_returns events directory) as (rows & Hret & _).
  exists rows. split; [done|]. by eapply add_category_column.
Qed.

End EnrichMore.

(** ** Summaries: what a row says *)
Module SummaryMore.
Import Analysis KeyOrder SummaryFacts.

Lemma group_size_column f rows key :
  group_size key (column f rows)
  = List.length (filter (λ row, f (log (merged row)) = key) rows).
Proof.
  unfold group_size, column.
  induction rows as [|row rows IH]; [done|].
  rewrite fmap_cons, !filter_cons.
  destruct (decide (f (log (merged row)) = key)); simpl; by rewrite IH.
Qed.

Lemma group_size_positive key col : key ∈ col ↔ (0 < group_size key col)%nat.
Proof.
  unfold group_size. induction col as [|x col IH].
  - rewrite elem_of_nil. simpl. lia.
  - rewrite elem_of_cons, filter_cons.
    destruct (decide (x = key)) as [->|Hne]; simpl.
    + split; [lia | by left].
    + rewrite <- IH. split; [by intros [?|?] | by right].
Qed.

Lemma groupby_size_row f rows key n :
  (key, n) ∈ groupby_size (column f rows) ↔
  (0 < n)%nat ∧
  n = List.length (filter (λ row, f (log (merged row)) = key) rows).
Proof.
  unfold groupby_size. rewrite list_elem_of_fmap.
  setoid_rewrite group_keys_elem_of. rewrite <- group_size_column. split.
  - intros (k & [= -> ->] & Hk). split; [|done]. by apply group_size_positive.
  - intros [Hpos ->]. exists key. split; [done|]. by apply group_size_positive.
Qed.

(** A pair (key, n) is a row of a summary exactly when n events carry
    that key in the grouped column and n is not zero; this holds for
    the operation, severity and resource summaries alike. *)
Theorem summarize_row_meaning rows key n :
  ((key, n) ∈ operation_summary (summarize rows) ↔
   (0 < n)%nat ∧
   n = List.length (filter (λ row, OperationName (log (merged row)) = key) rows)) ∧
  ((key, n) ∈ severity_summary (summarize rows) ↔
   (0 < n)%nat ∧
   n = List.length (filter (λ row, Level (log (merged row)) = key) rows)) ∧
  ((key, n) ∈ resource_summary (summarize rows) ↔
   (0 < n)%nat ∧
   n = List.length (filter (λ row, ResourceId (log (merged row)) = key) rows)).
Proof. unfold summarize; simpl. split; [|split]; apply groupby_size_row. Qed.

End SummaryMore.

(** ** Report: worksheet cells *)
Module SheetFacts.
Import Analysis Report.
Local Open Scope nat_scope.

Lemma write_row_other row column values cs r c :
  r ≠ row ∨ c < column →
  write_row row column values cs !! (r, c) = cs !! (r, c).
Proof.
  revert column cs. induction values as [|v values IH]; intros column cs Hout;
    [done|].
  simpl. rewrite IH by (destruct Hout; [by left | right; lia]).
  apply lookup_insert_ne. intros [= -> ->]. destruct Hout; [done | lia].
Qed.

Lemma write_row_lookup row column values cs j v :
  values !! j = Some v →
  write_row row column values cs !! (row, column + j) = Some v.
Proof.
  revert column cs j. induction values as [|v0 values IH]; intros column cs j;
    [done|].
  destruct j as [|j]; simpl.
  - intros [= ->]. rewrite write_row_other by (right; lia).
    rewrite Nat.add_0_r. apply lookup_insert_eq.
  - intros Hj. replace (column + S j) with (S column + j) by lia. by apply IH.
Qed.

Lemma write_row_Some row column values cs r c v :
  write_row row column values cs !! (r, c) = Some v →
  r = row ∨ cs !! (r, c) = Some v.
Proof.
  destruct (decide (r = row)) as [->|Hne]; [by left|].
  rewrite write_row_other by (by left). by right.
Qed.

Lemma append_all_cons r rows ws :
  append_all (r :: rows) ws = append_all rows (append r ws).
Proof. reflexivity. Qed.

Lemma append_all_current_row rows ws :
  current_row (append_all rows ws) = current_row ws + List.length rows.
Proof.
  revert ws. induction rows as [|r rows IH]; intros ws; [simpl; lia|].
  rewrite append_all_cons, IH. simpl. lia.
Qed.

(** Appending never touches a row that is already there. *)
Lemma append_all_old rows ws r c :
  r ≤ current_row ws →
  cells (append_all rows ws) !! (r, c) = cells ws !! (r, c).
Proof.
  revert ws. induction rows as [|vals rows IH]; intros ws Hr; [done|].
  rewrite append_all_cons, IH by (simpl; lia). simpl.
  apply write_row_other. left. lia.
Qed.

(** The j-th value of the i-th appended row lands i+1 rows below the
    row counter, in column j+1. *)
Lemma append_all_new rows ws i vals j v :
  rows !! i = Some vals → vals !! j = Some v →
  cells (append_all rows ws) !! (current_row ws + 1 + i, 1 + j) = Some v.
Proof.
  revert ws i. induction rows as [|r rows IH]; intros ws i; [done|].
  rewrite append_all_cons. destruct i as [|i]; intros Hi Hj; simpl in Hi.
  - injection Hi as ->. rewrite append_all_old by (simpl; lia). simpl.
    rewrite Nat.add_0_r. by apply (write_row_lookup _ 1).
  - replace (current_row ws + 1 + S i) with (current_row (append r ws) + 1 + i)
      by (simpl; lia).
    by eapply IH.
Qed.

(** No cell lies below the row counter. *)
Definition bounded (ws : Worksheet) : Prop :=
  ∀ r c v, cells ws !! (r, c) = Some v → r ≤ current_row ws.

Lemma bounded_new_sheet : bounded new_sheet.
Proof. intros r c v. simpl. by rewrite lookup_empty. Qed.

Lemma bounded_cell row column v ws : bounded ws → bounded (cell row column v ws).
Proof.
  intros Hb r c v'. simpl. rewrite lookup_insert.
  destruct (decide ((row, column) = (r, c))) as [[= -> ->]|_]; [lia|].
  intros Hrc. specialize (Hb _ _ _ Hrc). lia.
Qed.

Lemma bounded_append values ws : bounded ws → bounded (append values ws).
Proof.
  intros Hb r c v'. simpl. intros Hrc.
  apply write_row_Some in Hrc as [->|Hrc]; [lia|].
  specialize (Hb _ _ _ Hrc). lia.
Qed.

Lemma bounded_append_all rows ws : bounded ws → bounded (append_all rows ws).
Proof.
  revert ws. induction rows as [|r rows IH]; intros ws Hb; [done|].
  rewrite append_all_cons. by apply IH, bounded_append.
Qed.

(** On such a sheet [max_row] is the row counter as soon as the row of
    the counter has a cell. *)
Lemma max_row_current ws c :
  bounded ws → is_Some (cells ws !! (current_row ws, c)) →
  max_row ws = current_row ws.
Proof.
  intros Hb [v Hv]. unfold max_row.
  assert (current_row ws ∈ (map_to_list (cells ws)).*1.*1) as Hin.
  { apply list_elem_of_fmap. exists (current_row ws, c). split; [done|].
    apply list_elem_of_fmap. exists ((current_row ws, c), v). split; [done|].
    by apply elem_of_map_to_list. }
  assert (∀ r, r ∈ (map_to_list (cells ws)).*1.*1 → r ≤ current_row ws) as Hle.
  { intros r Hr. apply list_elem_of_fmap in Hr as ([r' c'] & -> & Hr).
    apply list_elem_of_fmap in Hr as ([[r'' c''] v'] & [= <- <-] & Hr).
    apply elem_of_map_to_list in Hr. by eapply Hb. }
  destruct ((map_to_list (cells ws)).*1.*1) as [|r0 rs] eqn:Hrows.
  { by apply elem_of_nil in Hin. }
  apply Nat.le_antisymm.
  - apply Hle, max_list_elem_of. done.
  - by apply max_list_elem_of_le.
Qed.



End SheetFacts.

(** ** Report: summary sheet and analysis sheet *)
Module ReportFacts.
Import Analysis Report Samples MoreSamples SummaryFacts SummaryMore SheetFacts.
Local Open Scope nat_scope.



Lemma unique_from_length seen col :
  List.length (unique_from seen col) ≤ List.length col.
Proof.
  revert seen. induction col as [|x col IH]; intros seen; simpl; [lia|].
  destruct (decide (x ∈ seen)); simpl.
  - specialize (IH seen). lia.
  - specialize (IH ({[x]} ∪ seen)). lia.
Qed.

Lemma groupby_size_length col :
  List.length (groupby_size col) = List.length (unique col).
Proof.
  unfold groupby_size, group_keys.
  by rewrite length_fmap, merge_sort_Permutation.
Qed.

(** The numbers of a summary-sheet row agree with the summaries of the
    same subscription: "Resource Types" is the number of rows of the
    resource summary, "Error Logs" is the count of the severity row
    "Error" and is 0 exactly when there is no such row, and neither
    exceeds "Total Logs". *)
Theorem summary_numbers_agree logs :
  resource_types logs = List.length (resource_summary (summarize logs)) ∧
  (∀ n, ("Error", n) ∈ severity_summary (summarize logs) → n = error_logs logs) ∧
  (error_logs logs = 0 ↔ "Error" ∉ (severity_summary (summarize logs)).*1) ∧
  error_logs logs ≤ total_logs logs ∧
  resource_types logs ≤ total_logs logs.
Proof.
  unfold resource_types, error_logs, total_logs, summarize; simpl.
  split_and!.
  - by rewrite groupby_size_length.
  - intros n Hn. by apply groupby_size_row in Hn as [_ ->].
  - rewrite groupby_size_keys, group_keys_elem_of, group_size_positive.
    rewrite group_size_column. lia.
  - apply length_filter.
  - etrans; [apply unique_from_length|]. by rewrite column_length.
Qed.

Section layout.
Variable s : Summary.
Let top := take 5 (operation_summary s).
Let a := analysis_sheet s.

(** The sheet after the operations table has been appended. *)
Let ws1 : Worksheet :=
  append_all (dataframe_to_rows ["OperationName"; "Count"] top)
             (cell 1 1 (Str "Top Operations") new_sheet).

Let ws2 : Worksheet :=
  cell (2 + List.length top + 2) 1 (Str "Log Severity") ws1.

Lemma ws1_current_row : current_row ws1 = 2 + List.length top.
Proof.
  unfold ws1. rewrite append_all_current_row. simpl.
  rewrite length_fmap. lia.
Qed.

Lemma ws2_current_row : current_row ws2 = 4 + List.length top.
Proof. unfold ws2. simpl. rewrite ws1_current_row. lia. Qed.

Lemma sheet_unfold :
  sheet a = append_all
              (dataframe_to_rows ["Level"; "Count"] (severity_summary s)) ws2.
Proof. reflexivity. Qed.

Lemma sev_start_row_value : sev_start_row a = 5 + List.length top.
Proof. unfold a, analysis_sheet. simpl. fold top. lia. Qed.

Lemma op_start_row_value : op_start_row a = 2.
Proof. reflexivity. Qed.

Lemma sheet_bounded : bounded (sheet a).
Proof.
  rewrite sheet_unfold. apply bounded_append_all, bounded_cell.
  apply bounded_append_all, bounded_cell, bounded_new_sheet.
Qed.

Lemma sheet_current_row :
  current_row (sheet a) = sev_start_row a + List.length (severity_summary s).
Proof.
  rewrite sheet_unfold, append_all_current_row, ws2_current_row.
  rewrite sev_start_row_value. simpl. rewrite length_fmap. lia.
Qed.

(** A cell of the operations table: header at i = 0, rows after it. *)
Lemma operation_cell i vals j v :
  dataframe_to_rows ["OperationName"; "Count"] top !! i = Some vals →
  vals !! j = Some v →
  cells (sheet a) !! (2 + i, 1 + j) = Some v.
Proof.
  intros Hi Hj.
  assert (i < S (List.length top)) as Hlt.
  { apply lookup_lt_Some in Hi. simpl in Hi. by rewrite length_fmap in Hi. }
  rewrite sheet_unfold, append_all_old by (rewrite ws2_current_row; lia).
  unfold ws2. simpl. rewrite lookup_insert_ne by (intros [=]; lia).
  exact (append_all_new _ (cell 1 1 (Str "Top Operations") new_sheet)
           i vals j v Hi Hj).
Qed.

(** A cell of the severity table. *)
Lemma severity_cell i vals j v :
  dataframe_to_rows ["Level"; "Count"] (severity_summary s) !! i = Some vals →
  vals !! j = Some v →
  cells (sheet a) !! (sev_start_row a + i, 1 + j) = Some v.
Proof.
  intros Hi Hj. rewrite sheet_unfold, sev_start_row_value.
  replace (5 + List.length top + i) with (current_row ws2 + 1 + i)
    by (rewrite ws2_current_row; lia).
  by eapply append_all_new.
Qed.

Lemma title_cells :
  cells (sheet a) !! (1, 1) = Some (Str "Top Operations") ∧
  cells (sheet a) !! (sev_start_row a - 1, 1) = Some (Str "Log Severity").
Proof.
  rewrite sheet_unfold, sev_start_row_value.
  rewrite !append_all_old by (rewrite ws2_current_row; lia).
  split.
  - unfold ws2. cbn [cells cell].
    rewrite lookup_insert_ne by (intros [=]; lia).
    unfold ws1. rewrite append_all_old by (simpl; lia). simpl.
    apply lookup_insert_eq.
  - replace (5 + List.length top - 1) with (2 + List.length top + 2) by lia.
    unfold ws2. cbn [cells cell]. apply lookup_insert_eq.
Qed.

Lemma max_row_value :
  max_row (sheet a) = sev_start_row a + List.length (severity_summary s).
Proof.
  rewrite <- sheet_current_row.
  apply (max_row_current _ 1); [apply sheet_bounded|].
  rewrite sheet_current_row.
  destruct (lookup_lt_is_Some_2
              (dataframe_to_rows ["Level"; "Count"] (severity_summary s))
              (List.length (severity_summary s))) as [vals Hvals].
  { simpl. rewrite length_fmap. lia. }
  assert (∃ v, vals !! 0 = Some v) as [v Hv].
  { destruct (List.length (severity_summary s)) as [|k] eqn:Hlen; simpl in Hvals.
    - injection Hvals as <-. by eexists.
    - rewrite list_lookup_fmap in Hvals.
      destruct (severity_summary s !! k) as [p|]; [|done].
      injection Hvals as <-. by eexists. }
  exists v. by apply (severity_cell _ vals 0 v).
Qed.
End layout.

(** On the analysis sheet the two titles and the two header rows are
    where the row arithmetic of the code puts them: the operations
    header on [op_start_row], the severity title one row above
    [sev_start_row] and the severity header on [sev_start_row], for any
    number of operations; and [max_row], which ends the pie-chart
    references, is the last row of the severity table. *)
Theorem analysis_sheet_layout s :
  let a := analysis_sheet s in
  op_start_row a = 2 ∧
  sev_start_row a = 5 + Nat.min 5 (List.length (operation_summary s)) ∧
  cells (sheet a) !! (op_start_row a - 1, 1) = Some (Str "Top Operations") ∧
  cells (sheet a) !! (op_start_row a, 1) = Some (Str "OperationName") ∧
  cells (sheet a) !! (op_start_row a, 2) = Some (Str "Count") ∧
  cells (sheet a) !! (sev_start_row a - 1, 1) = Some (Str "Log Severity") ∧
  cells (sheet a) !! (sev_start_row a, 1) = Some (Str "Level") ∧
  cells (sheet a) !! (sev_start_row a, 2) = Some (Str "Count") ∧
  ref_max_row (data a) = sev_start_row a + List.length (severity_summary s) ∧
  ref_max_row (labels a) = sev_start_row a + List.length (severity_summary s).
Proof.
  intros a. unfold a.
  destruct (title_cells s) as [Htop Hsev].
  split_and!; try done.
  - by rewrite sev_start_row_value, length_take.
  - by apply (operation_cell s 0 [Str "OperationName"; Str "Count"] 0).
  - by apply (operation_cell s 0 [Str "OperationName"; Str "Count"] 1).
  - rewrite <- (Nat.add_0_r (sev_start_row _)).
    by apply (severity_cell s 0 [Str "Level"; Str "Count"] 0).
  - rewrite <- (Nat.add_0_r (sev_start_row _)).
    by apply (severity_cell s 0 [Str "Level"; Str "Count"] 1).
  - apply max_row_value.
  - apply max_row_value.
Qed.

(** The i-th of the first five operations is written i+1 rows below
    the operations header.  Its name lies in the category range of the
    bar chart, but its count lies in the data range only for the first
    four: the fifth operation gets a label and no bar. *)
Theorem analysis_sheet_operations s i key n :
  operation_summary s !! i = Some (key, n) →
  i < 5 →
  let a := analysis_sheet s in
  let row := op_start_row a + 1 + i in
  cells (sheet a) !! (row, 1) = Some (Str key) ∧
  cells (sheet a) !! (row, 2) = Some (Int n) ∧
  covers (op_cats a) row 1 ∧
  (covers (op_data a) row 2 ↔ i < 4).
Proof.
  intros Hi Hlt a row. unfold row, a. rewrite op_start_row_value.
  assert (dataframe_to_rows ["OperationName"; "Count"]
            (take 5 (operation_summary s)) !! S i = Some [Str key; Int n])
    as Hrow.
  { simpl. by rewrite list_lookup_fmap, lookup_take_lt, Hi. }
  split_and!.
  - replace (2 + 1 + i) with (2 + S i) by lia.
    by apply (operation_cell s (S i) [Str key; Int n] 0).
  - replace (2 + 1 + i) with (2 + S i) by lia.
    by apply (operation_cell s (S i) [Str key; Int n] 1).
  - unfold covers. simpl. lia.
  - unfold covers. simpl. lia.
Qed.

Lemma analysis_sheet_operations_witness :
  let a := analysis_sheet (summarize seven_operations) in
  let row := op_start_row a + 1 + 4 in
  cells (sheet a) !! (row, 1) = Some (Str "Op5") ∧
  cells (sheet a) !! (row, 2) = Some (Int 1) ∧
  covers (op_cats a) row 1 ∧
  (covers (op_data a) row 2 ↔ 4 < 4).
Proof.
  apply (analysis_sheet_operations (summarize seven_operations) 4 "Op5" 1).
  - vm_compute. reflexivity.
  - lia.
Defined.

(** The i-th severity row is written i+1 rows below the severity
    header, and both pie-chart references cover it. *)
Theorem analysis_sheet_severity s i key n :
  severity_summary s !! i = Some (key, n) →
  let a := analysis_sheet s in
  let row := sev_start_row a + 1 + i in
  cells (sheet a) !! (row, 1) = Some (Str key) ∧
  cells (sheet a) !! (row, 2) = Some (Int n) ∧
  covers (labels a) row 1 ∧
  covers (data a) row 2.
Proof.
  intros Hi a row. unfold row, a.
  assert (dataframe_to_rows ["Level"; "Count"] (severity_summary s) !! S i
          = Some [Str key; Int n]) as Hrow.
  { simpl. by rewrite list_lookup_fmap, Hi. }
  pose proof (max_row_value s) as Hmax.
  pose proof (lookup_lt_Some _ _ _ Hi) as Hlen.
  split_and!.
  - replace (sev_start_row (analysis_sheet s) + 1 + i)
      with (sev_start_row (analysis_sheet s) + S i) by lia.
    by apply (severity_cell s (S i) [Str key; Int n] 0).
  - replace (sev_start_row (analysis_sheet s) + 1 + i)
      with (sev_start_row (analysis_sheet s) + S i) by lia.
    by apply (severity_cell s (S i) [Str key; Int n] 1).
  - unfold covers. change (ref_max_row (labels (analysis_sheet s)))
      with (max_row (sheet (analysis_sheet s))).
    change (min_row (labels (analysis_sheet s)))
      with (sev_start_row (analysis_sheet s) + 1).
    split; [done|]. lia.
  - unfold covers. change (ref_max_row (data (analysis_sheet s)))
      with (max_row (sheet (analysis_sheet s))).
    change (min_row (data (analysis_sheet s)))
      with (sev_start_row (analysis_sheet s)).
    split; [done|]. lia.
Qed.

Lemma analysis_sheet_severity_witness :
  let a := analysis_sheet (summarize scenario) in
  let row := sev_start_row a + 1 + 1 in
  cells (sheet a) !! (row, 1) = Some (Str "Info") ∧
  cells (sheet a) !! (row, 2) = Some (Int 1) ∧
  covers (labels a) row 1 ∧
  covers (data a) row 2.
Proof.
  apply (analysis_sheet_severity (summarize scenario) 1 "Info" 1).
  vm_compute. reflexivity.
Defined.

End ReportFacts.

(** ** Driver: the first exception ends the run *)
Module MainClaims.
Import Analysis Main Samples MoreSamples EnrichFacts SummaryFacts MainMore.

Lemma ingest_all_raises ingest before s after e log_data :
  (∀ x, x ∈ before → ∃ df, ingest x = Returned df) →
  ingest s = Raised e →
  ingest_all ingest (before ++ s :: after) log_data = Raised e.
Proof.
  revert log_data. induction before as [|x before IH]; intros log_data Hret Hs.
  - simpl. by rewrite Hs.
  - simpl. destruct (Hret x) as [df ->]; [by left|]. simpl.
    apply IH; [|done]. intros y Hy. apply Hret. by right.
Qed.

Lemma ingest_all_returns ingest subscriptions log_data :
  (∀ x, x ∈ subscriptions → ∃ df, ingest x = Returned df) →
  ∃ log_data', ingest_all ingest subscriptions log_data = Returned log_data'.
Proof.
  revert log_data.
  induction subscriptions as [|x subscriptions IH]; intros log_data Hret.
  - by exists log_data.
  - simpl. destruct (Hret x) as [df ->]; [by left|]. simpl.
    apply IH. intros y Hy. apply Hret. by right.
Qed.

Lemma unique_from_app seen col1 col2 :
  unique_from seen (col1 ++ col2)
  = unique_from seen col1 ++ unique_from (list_to_set col1 ∪ seen) col2.
Proof.
  revert seen. induction col1 as [|x col1 IH]; intros seen.
  - simpl. apply unique_from_seen. intros y.
    rewrite elem_of_union, elem_of_empty. tauto.
  - simpl. destruct (decide (x ∈ seen)) as [Hx|Hx].
    + rewrite IH. f_equal. apply unique_from_seen. intros y.
      rewrite !elem_of_union, elem_of_singleton. split; [tauto|].
      intros [[->|?]|?]; tauto.
    + rewrite IH. simpl. do 2 f_equal. apply unique_from_seen. intros y.
      rewrite !elem_of_union, elem_of_singleton. tauto.
Qed.

(** The keys of the first appearance of [s] and of what stands before. *)
Lemma unique_split before s after :
  s ∉ before →
  ∃ rest, unique (before ++ s :: after) = unique before ++ s :: rest.
Proof.
  intros Hs. unfold unique. rewrite unique_from_app. simpl.
  rewrite decide_False; [by eexists|].
  rewrite elem_of_union, elem_of_list_to_set, elem_of_empty. tauto.
Qed.

Lemma process_items_raises resources_list items_before s df items_after e acc :
  (∀ k, k ∈ Dict.keys items_before → ∃ dir, resources_list k = Returned dir) →
  resources_list s = Raised e →
  process_items resources_list (items_before ++ (s, df) :: items_after) acc
  = Raised e.
Proof.
  revert acc. unfold Dict.keys.
  induction items_before as [|[k df0] items_before IH]; intros acc Hret Hs.
  - simpl. unfold analyse. by rewrite Hs.
  - simpl. unfold analyse at 1.
    destruct (Hret k) as [dir ->]; [by left|]. simpl.
    destruct (enrich_returns df0 dir) as (rows & -> & _). simpl.
    apply IH; [|done]. intros k' Hk'. apply Hret. by right.
Qed.

(** C2, as amended: the first exception raised in a run reaches the
    single handler of [main] and ends the run with "Log analysis
    failed"; no per-subscription mapping reaches the report generator.
    This holds when a collector raises after the collectors of the
    subscriptions before it have returned, whatever the collectors of
    the other subscriptions and the directory would do; and, all
    collectors having returned, when the directory fetch of a
    subscription raises after the fetches of the subscriptions before
    it have returned, whatever the fetches of the other subscriptions
    would do. *)
Theorem main_failure_ends_run before s after e ingest resources_list :
  ((∀ x, x ∈ before → ∃ df, ingest x = Returned df) →
   ingest s = Raised e →
   ∀ ingest' resources_list',
     (∀ x, x ∈ s :: before → ingest' x = ingest x) →
     main_with (Returned (before ++ s :: after)) ingest' resources_list'
     = LogAnalysisFailed e) ∧
  ((∀ x, x ∈ before ++ s :: after → ∃ df, ingest x = Returned df) →
   (∀ x, x ∈ before → ∃ dir, resources_list x = Returned dir) →
   resources_list s = Raised e →
   ∀ resources_list',
     (∀ x, x ∈ s :: before → resources_list' x = resources_list x) →
     main_with (Returned (before ++ s :: after)) ingest resources_list'
     = LogAnalysisFailed e).
Proof.
  split.
  - intros Hret Hs ingest' resources_list' Hsame.
    unfold main_with, main_body. simpl.
    rewrite (ingest_all_raises ingest' before s after e); [done| |].
    + intros x Hx. destruct (Hret x Hx) as [df Hdf]. exists df.
      rewrite Hsame; [done | by right].
    + rewrite Hsame; [done | by left].
  - intros Hret Hdirs Hs resources_list' Hsame.
    assert (s ∉ before) as Hfresh.
    { intros Hin. destruct (Hdirs s Hin) as [dir Hdir]. congruence. }
    unfold main_with, main_body. simpl.
    destruct (ingest_all_returns ingest (before ++ s :: after) [] Hret)
      as [log_data Hld].
    rewrite Hld. simpl.
    destruct (ingest_all_stores ingest _ _ _ Hld) as [Hkeys _].
    simpl in Hkeys.
    destruct (unique_split before s after Hfresh) as [rest Hsplit].
    assert (Dict.keys log_data = unique before ++ s :: rest) as Hkeys'.
    { by rewrite Hkeys, <- Hsplit. }
    unfold Dict.keys in Hkeys'.
    apply fmap_app_inv in Hkeys' as (items_before & items & Hb & Hi & ->).
    destruct items as [|[s' df] items_after]; [done|].
    injection Hi as <- _.
    unfold process_log_data.
    rewrite (process_items_raises resources_list' items_before s df
               items_after e); [reflexivity| |].
    + intros k Hk. unfold Dict.keys in Hk. rewrite <- Hb in Hk.
      apply (proj1 (unique_elem_of before k)) in Hk.
      destruct (Hdirs k Hk) as [dir Hdir]. exists dir.
      rewrite Hsame; [done | by right].
    + rewrite Hsame; [done | by left].
Qed.

Lemma main_failure_ends_run_witness :
  main 10 (Returned ([] ++ "sub-A" :: ["sub-B"])) unavailable directory_A_down
  = LogAnalysisFailed (ServiceError "stream unavailable") ∧
  main_with (Returned (["sub-B"] ++ "sub-A" :: ["sub-C"]))
            ingest_one directory_A_down
  = LogAnalysisFailed (ServiceError "directory fetch failed").
Proof.
  split.
  - apply (proj1 (main_failure_ends_run [] "sub-A" ["sub-B"]
                    (ServiceError "stream unavailable")
                    (Collector.ingest_subscription_logs 10 unavailable)
                    directory_up)).
    + intros x Hx. by apply elem_of_nil in Hx.
    + reflexivity.
    + done.
  - apply (proj2 (main_failure_ends_run ["sub-B"] "sub-A" ["sub-C"]
                    (ServiceError "directory fetch failed")
                    ingest_one directory_A_down)).
    + intros x _. by exists [ev_vm1].
    + intros x Hx. apply list_elem_of_singleton in Hx as ->.
      by exists [res_vm1].
    + reflexivity.
    + done.
Defined.

End MainClaims.
